(** * Scheduled start/stop of tagged RDS instances and clusters

    A shallow embedding of [src/lambda_function/src/main.py]
    (class [CWScheduledEventManageRdsState]) and the properties of its
    discovery, transition and orchestration routines.

    The Python code talks to three collaborators that are not part of the
    file: the [boto3] SDK (client construction, the paginated tagging API and
    the four RDS start/stop requests), the logger of the base class and
    [_build_response_ok].  They are taken as a parameter ([platform]); every
    interaction with them is recorded, with the answer that came back, in a
    chronological trace of [event]s. *)

From Stdlib Require Import String Ascii List Bool Arith Lia DecimalString.
Import ListNotations.
Local Open Scope string_scope.
Local Open Scope list_scope.

(* ===================================================================== *)
(** * Python strings and lists *)
(* ===================================================================== *)

Module Py.

(** [s.split(sep)] for a one-character separator: the segments between the
    occurrences of [sep], empty segments kept.  [cur] is the segment being
    read. *)
Fixpoint split_from (sep : ascii) (cur s : string) : list string :=
  match s with
  | EmptyString => [cur]
  | String c s' =>
      if Ascii.eqb c sep then cur :: split_from sep "" s'
      else split_from sep (cur ++ String c "") s'
  end.

Definition split (sep : ascii) (s : string) : list string :=
  split_from sep "" s.

(** [l[-1]] on a list of strings.  The default is returned on the empty
    list only, where Python raises IndexError; [split] never returns it
    (lemma [split_not_nil]). *)
Definition index_last (l : list string) : string := last l "".

(** [x in l] for a list of strings. *)
Definition mem (x : string) (l : list string) : bool :=
  existsb (String.eqb x) l.

(** [str(len(l))]. *)
Definition str_len {A} (l : list A) : string :=
  NilZero.string_of_uint (Nat.to_uint (List.length l)).

(** Whether the character [c] occurs in [s]. *)
Fixpoint occurs (c : ascii) (s : string) : bool :=
  match s with
  | EmptyString => false
  | String d s' => Ascii.eqb d c || occurs c s'
  end.

End Py.


(* ===================================================================== *)
(** * Data model *)
(* ===================================================================== *)

(** Exceptions.  The two state faults are the ones the code names in its
    [except] clauses; every other exception an SDK call can raise (access
    denied, not found, throttling, invalid region, ...) is [OtherError]. *)
Inductive exc : Type :=
| InvalidDBInstanceStateFault
| InvalidDBClusterStateFault
| OtherError (name : string).

Definition exc_eqb (a b : exc) : bool :=
  match a, b with
  | InvalidDBInstanceStateFault, InvalidDBInstanceStateFault => true
  | InvalidDBClusterStateFault, InvalidDBClusterStateFault => true
  | OtherError x, OtherError y => String.eqb x y
  | _, _ => false
  end.

(** One entry of a page of the tagging API: [resource['ResourceARN']]. *)
Record resource : Type := { ResourceARN : string }.

(** One page of [get_resources]: [resource_page['ResourceTagMappingList']]. *)
Record resource_page : Type := { ResourceTagMappingList : list resource }.

(** The four RDS requests the code issues. *)
Inductive rds_operation : Type :=
| stop_db_instance
| start_db_instance
| stop_db_cluster
| start_db_cluster.

(** A client object as [boto3.client(service, region_name=...)] returns it. *)
Record Client : Type := { service_name : string; region_name : string }.

(** Severities of the logger calls the code makes. *)
Inductive level : Type := DEBUG | INFO | WARNING.

(** What an invocation does to the outside, in the order it does it.  Each
    SDK interaction carries the answer that came back: [None] / [inr] is a
    normal return, [Some e] / [inl e] is the exception raised.  A logger
    call keeps its format string and its arguments, as passed. *)
Inductive event : Type :=
| EvLog (lvl : level) (fmt : string) (args : list string)
| EvClient (service region : string) (answer : option exc)
| EvGetResources (region rtype key value : string)
                 (answer : exc + list resource_page)
| EvRds (op : rds_operation) (region id : string) (answer : option exc).

(** The collaborators: the SDK as a state machine over an arbitrary remote
    [World] (so that the same request may be answered differently the
    second time), and the success payload of the base class. *)
Record platform : Type := {
  World : Type;
  sdk_client : string -> string -> World -> World * option exc;
  sdk_get_resources :
    string -> string -> string -> string -> World ->
    World * (exc + list resource_page);
  sdk_rds : rds_operation -> string -> string -> World -> World * option exc;
  Response : Type;
  _build_response_ok : Response
}.

(** The class attributes read from the environment when the class is
    defined. *)
Record settings : Type := {
  ACTION : string;
  RESOURCE_TAG_KEY : string;
  RESOURCE_TAG_VALUE : string;
  AWS_REGIONS : list string
}.

(** [os.environ[...]] four times; [None] is the KeyError of a missing
    variable. *)
Definition class_attributes (environ : string -> option string)
  : option settings :=
  match environ "PARAM_ACTION" with
  | None => None
  | Some action =>
    match environ "PARAM_RESOURCE_TAG_KEY" with
    | None => None
    | Some key =>
      match environ "PARAM_RESOURCE_TAG_VALUE" with
      | None => None
      | Some value =>
        match environ "PARAM_AWS_REGIONS" with
        | None => None
        | Some regions =>
            Some {| ACTION := action;
                    RESOURCE_TAG_KEY := key;
                    RESOURCE_TAG_VALUE := value;
                    AWS_REGIONS := Py.split "," regions |}
        end
      end
    end
  end.

(* ===================================================================== *)
(** * The effect monad: remote state, trace, exceptions *)
(* ===================================================================== *)

Section Effects.

Variable P : platform.

Definition outcome (A : Type) : Type := (list event * World P * (exc + A))%type.

Definition M (A : Type) : Type := World P -> outcome A.

Definition trace {A} (o : outcome A) : list event := fst (fst o).
Definition world {A} (o : outcome A) : World P := snd (fst o).
Definition result {A} (o : outcome A) : exc + A := snd o.

Definition ret {A} (a : A) : M A := fun w => ([], w, inr a).

Definition bind {A B} (m : M A) (f : A -> M B) : M B :=
  fun w =>
    let '(t1, w1, r1) := m w in
    match r1 with
    | inl e => (t1, w1, inl e)
    | inr a => let '(t2, w2, r2) := f a w1 in (t1 ++ t2, w2, r2)
    end.

(** [try: body / except <catches>: handler]. *)
Definition try_except {A} (body : M A) (catches : exc -> bool)
           (handler : M A) : M A :=
  fun w =>
    let '(t1, w1, r1) := body w in
    match r1 with
    | inr a => (t1, w1, inr a)
    | inl e =>
        if catches e
        then let '(t2, w2, r2) := handler w1 in (t1 ++ t2, w2, r2)
        else (t1, w1, inl e)
    end.

(** [for x in xs: body]. *)
Fixpoint for_each {A} (xs : list A) (body : A -> M unit) : M unit :=
  match xs with
  | [] => ret tt
  | x :: xs' => bind (body x) (fun _ => for_each xs' body)
  end.

(** [self.logger.<lvl>(fmt, *args)]. *)
Definition logger (lvl : level) (fmt : string) (args : list string) : M unit :=
  fun w => ([EvLog lvl fmt args], w, inr tt).

(** [boto3.client(service, region_name=region)]. *)
Definition boto3_client (service region : string) : M Client :=
  fun w =>
    let '(w', a) := sdk_client P service region w in
    ([EvClient service region a], w',
     match a with
     | Some e => inl e
     | None => inr {| service_name := service; region_name := region |}
     end).

(** [client.get_paginator('get_resources').paginate(TagFilters=[{Key,
    Values=[value]}], ResourceTypeFilters=[rtype])], iterated to the end. *)
Definition paginate_get_resources (c : Client) (rtype key value : string)
  : M (list resource_page) :=
  fun w =>
    let '(w', a) := sdk_get_resources P (region_name c) rtype key value w in
    ([EvGetResources (region_name c) rtype key value a], w', a).

(** [rds_client.<op>(DB...Identifier=id)]. *)
Definition rds_call (c : Client) (op : rds_operation) (id : string) : M unit :=
  fun w =>
    let '(w', a) := sdk_rds P op (region_name c) id w in
    ([EvRds op (region_name c) id a], w',
     match a with Some e => inl e | None => inr tt end).

End Effects.

Arguments ret {P A} a.
Arguments bind {P A B} m f.
Arguments try_except {P A} body catches handler.
Arguments for_each {P A} xs body.
Arguments trace {P A} o.
Arguments world {P A} o.
Arguments result {P A} o.

Declare Scope py_scope.
Delimit Scope py_scope with py.
Notation "x <- m ;; k" := (bind m (fun x => k))
  (at level 61, m at next level, right associativity) : py_scope.
Notation "m ;; k" := (bind m (fun _ => k))
  (at level 61, right associativity) : py_scope.
Local Open Scope py_scope.

(* ===================================================================== *)
(** * The class [CWScheduledEventManageRdsState] *)
(* ===================================================================== *)

Section Lambda.

Variable P : platform.

(** The inner loop of [_get_resource_identifiers_by_tag]: each resource of
    one page appends [resource['ResourceARN'].split(':')[-1]]. *)
Fixpoint append_resources (resources : list resource)
         (resource_identifiers : list string) : list string :=
  match resources with
  | [] => resource_identifiers
  | resource :: rest =>
      let resource_identifier :=
        Py.index_last (Py.split ":" (ResourceARN resource)) in
      append_resources rest (resource_identifiers ++ [resource_identifier])
  end.

(** The outer loop, over the pages. *)
Fixpoint append_pages (resource_pages : list resource_page)
         (resource_identifiers : list string) : list string :=
  match resource_pages with
  | [] => resource_identifiers
  | resource_page :: rest =>
      append_pages rest
        (append_resources (ResourceTagMappingList resource_page)
                          resource_identifiers)
  end.

Definition _get_resource_identifiers_by_tag
           (aws_region_name aws_resource_type tag_key tag_value : string)
  : M P (list string) :=
  resource_groups_tagging_api_client <-
    boto3_client P "resourcegroupstaggingapi" aws_region_name ;;
  resource_pages <-
    paginate_get_resources P resource_groups_tagging_api_client
                           aws_resource_type tag_key tag_value ;;
  ret (append_pages resource_pages []).

Definition is_instance_state_fault (e : exc) : bool :=
  exc_eqb e InvalidDBInstanceStateFault.

Definition is_cluster_state_fault (e : exc) : bool :=
  exc_eqb e InvalidDBClusterStateFault.

Definition _stop_database_instances (aws_region_name : string)
           (rds_database_instance_names : list string) : M P unit :=
  rds_client <- boto3_client P "rds" aws_region_name ;;
  logger P INFO "> Stopping RDS database instances." [] ;;
  for_each rds_database_instance_names (fun rds_database_instance_name =>
    logger P INFO ">> Stopping RDS database instance %s."
           [rds_database_instance_name] ;;
    try_except
      (rds_call P rds_client stop_db_instance rds_database_instance_name ;;
       logger P INFO ">> RDS database instance %s => [STOPPED]."
              [rds_database_instance_name])
      is_instance_state_fault
      (logger P WARNING
         ">> Unable to stop RDS database instance %s due to invalid state."
         [rds_database_instance_name])).

Definition _start_database_instances (aws_region_name : string)
           (rds_database_instance_names : list string) : M P unit :=
  rds_client <- boto3_client P "rds" aws_region_name ;;
  logger P INFO "> Starting RDS database instances." [] ;;
  for_each rds_database_instance_names (fun rds_database_instance_name =>
    logger P DEBUG ">> Starting RDS database instance %s."
           [rds_database_instance_name] ;;
    try_except
      (rds_call P rds_client start_db_instance rds_database_instance_name ;;
       logger P INFO ">> RDS database instance %s => [AVAILABLE]."
              [rds_database_instance_name])
      is_instance_state_fault
      (logger P WARNING
         ">> Unable to start RDS database instance %s due to invalid state."
         [rds_database_instance_name])).

Definition _stop_database_clusters (aws_region_name : string)
           (rds_database_cluster_names : list string) : M P unit :=
  rds_client <- boto3_client P "rds" aws_region_name ;;
  logger P INFO "> Stopping RDS database clusters." [] ;;
  for_each rds_database_cluster_names (fun rds_database_cluster_name =>
    logger P INFO ">> Stopping RDS database cluster %s."
           [rds_database_cluster_name] ;;
    try_except
      (rds_call P rds_client stop_db_cluster rds_database_cluster_name ;;
       logger P INFO ">> RDS database cluster %s => [STOPPED]."
              [rds_database_cluster_name])
      is_cluster_state_fault
      (logger P WARNING
         ">> Unable to stop RDS database cluster %s due to invalid state."
         [rds_database_cluster_name])).

Definition _start_database_clusters (aws_region_name : string)
           (rds_database_cluster_names : list string) : M P unit :=
  rds_client <- boto3_client P "rds" aws_region_name ;;
  logger P INFO "> Starting RDS database clusters." [] ;;
  for_each rds_database_cluster_names (fun rds_database_cluster_name =>
    logger P DEBUG ">> Starting RDS database cluster %s."
           [rds_database_cluster_name] ;;
    try_except
      (rds_call P rds_client start_db_cluster rds_database_cluster_name ;;
       logger P INFO ">> RDS database cluster %s => [AVAILABLE]."
              [rds_database_cluster_name])
      is_cluster_state_fault
      (logger P WARNING
         ">> Unable to start RDS database cluster %s due to invalid state."
         [rds_database_cluster_name])).

Variable self : settings.

(** Lines 110-115: the guarded instance transition. *)
Definition enable_disable_instances (aws_region_name : string)
           (rds_database_instance_names : list string) : M P unit :=
  if Nat.ltb 0 (List.length rds_database_instance_names) then
    if Py.mem (ACTION self) ["enable"; "start"] then
      _start_database_instances aws_region_name rds_database_instance_names
    else if Py.mem (ACTION self) ["disable"; "stop"] then
      _stop_database_instances aws_region_name rds_database_instance_names
    else ret tt
  else ret tt.

(** Lines 126-131: the guarded cluster transition. *)
Definition enable_disable_clusters (aws_region_name : string)
           (rds_database_cluster_names : list string) : M P unit :=
  if Nat.ltb 0 (List.length rds_database_cluster_names) then
    if Py.mem (ACTION self) ["enable"; "start"] then
      _start_database_clusters aws_region_name rds_database_cluster_names
    else if Py.mem (ACTION self) ["disable"; "stop"] then
      _stop_database_clusters aws_region_name rds_database_cluster_names
    else ret tt
  else ret tt.

(** Lines 101-131: the body of the loop over the regions. *)
Definition execute_region (aws_region_name : string) : M P unit :=
  logger P INFO "> Searching RDS databases in region %s having tag %s=%s."
         [aws_region_name; RESOURCE_TAG_KEY self; RESOURCE_TAG_VALUE self] ;;
  rds_database_instance_names <-
    _get_resource_identifiers_by_tag aws_region_name "rds:db"
      (RESOURCE_TAG_KEY self) (RESOURCE_TAG_VALUE self) ;;
  logger P INFO "> Found %s RDS databases in region %s having tag %s=%s."
         [Py.str_len rds_database_instance_names; aws_region_name;
          RESOURCE_TAG_KEY self; RESOURCE_TAG_VALUE self] ;;
  enable_disable_instances aws_region_name rds_database_instance_names ;;
  logger P INFO "> Searching RDS clusters in region %s having tag %s=%s."
         [aws_region_name; RESOURCE_TAG_KEY self; RESOURCE_TAG_VALUE self] ;;
  rds_database_cluster_names <-
    _get_resource_identifiers_by_tag aws_region_name "rds:cluster"
      (RESOURCE_TAG_KEY self) (RESOURCE_TAG_VALUE self) ;;
  logger P INFO "> Found %s RDS clusters in region %s having tag %s=%s."
         [Py.str_len rds_database_cluster_names; aws_region_name;
          RESOURCE_TAG_KEY self; RESOURCE_TAG_VALUE self] ;;
  enable_disable_clusters aws_region_name rds_database_cluster_names.

(** [_execute(self, event, context)]; the two arguments are unused by the
    body (pylint W0613) and left out. *)
Definition _execute : M P (Response P) :=
  logger P INFO "Starting the operation." [] ;;
  for_each (AWS_REGIONS self) execute_region ;;
  logger P INFO "Operation completed successfully." [] ;;
  ret (_build_response_ok P).

End Lambda.

(* ===================================================================== *)
(** * Splitting strings *)
(* ===================================================================== *)

Section SplitFacts.

Variable sep : ascii.

Lemma append_snoc (a : string) (c : ascii) (b : string) :
  ((a ++ String c "") ++ b = a ++ String c b)%string.
Proof.
  induction a as [|d a IH]; simpl; [reflexivity | now rewrite IH].
Qed.

Lemma append_empty_r (a : string) : (a ++ "" = a)%string.
Proof.
  induction a as [|d a IH]; simpl; [reflexivity | now rewrite IH].
Qed.

Lemma split_from_not_nil (cur s : string) : Py.split_from sep cur s <> [].
Proof.
  revert cur. induction s as [|c s IH]; intros cur; simpl.
  - discriminate.
  - destruct (Ascii.eqb c sep); [discriminate | apply IH].
Qed.

Lemma split_not_nil (s : string) : Py.split sep s <> [].
Proof. apply split_from_not_nil. Qed.

(** Without a separator in it, the text is one segment. *)
Lemma split_from_no_sep (cur s : string) :
  Py.occurs sep s = false -> Py.split_from sep cur s = [(cur ++ s)%string].
Proof.
  revert cur. induction s as [|c s IH]; intros cur H; simpl in *.
  - now rewrite append_empty_r.
  - apply orb_false_elim in H. destruct H as [Hc Hs].
    rewrite Hc, (IH _ Hs), append_snoc. reflexivity.
Qed.

Lemma last_cons_not_nil (x : string) (l : list string) :
  l <> [] -> Py.index_last (x :: l) = Py.index_last l.
Proof.
  unfold Py.index_last. destruct l; [congruence | reflexivity].
Qed.

(** The last segment is what follows the last separator. *)
Lemma last_split_from (cur p i : string) :
  Py.occurs sep i = false ->
  Py.index_last (Py.split_from sep cur (p ++ String sep i)) = i.
Proof.
  intros Hi. revert cur. induction p as [|c p IH]; intros cur; simpl.
  - rewrite Ascii.eqb_refl, last_cons_not_nil by apply split_from_not_nil.
    now rewrite split_from_no_sep.
  - destruct (Ascii.eqb c sep).
    + rewrite last_cons_not_nil by apply split_from_not_nil. apply IH.
    + apply IH.
Qed.

(** The last segment holds no separator. *)
Lemma last_split_from_no_sep (cur s : string) :
  Py.occurs sep cur = false ->
  Py.occurs sep (Py.index_last (Py.split_from sep cur s)) = false.
Proof.
  revert cur. induction s as [|c s IH]; intros cur Hcur; simpl.
  - exact Hcur.
  - destruct (Ascii.eqb c sep) eqn:Hc.
    + rewrite last_cons_not_nil by apply split_from_not_nil.
      now apply IH.
    + apply IH. clear IH. induction cur as [|d cur IHc]; simpl in *.
      * now rewrite Hc.
      * apply orb_false_elim in Hcur. destruct Hcur as [Hd Hr].
        now rewrite Hd, (IHc Hr).
Qed.

(** Every segment but the last is followed by a separator: joining the
    segments with the separator gives the text back. *)
Fixpoint join (l : list string) : string :=
  match l with
  | [] => ""
  | [x] => x
  | x :: rest => (x ++ String sep (join rest))%string
  end.

Lemma join_split_from (cur s : string) :
  join (Py.split_from sep cur s) = (cur ++ s)%string.
Proof.
  revert cur. induction s as [|c s IH]; intros cur; simpl.
  - now rewrite append_empty_r.
  - destruct (Ascii.eqb_spec c sep) as [->|Hne].
    + generalize (split_from_not_nil "" s). specialize (IH "").
      destruct (Py.split_from sep "" s) as [|y l]; [congruence|].
      intros _. change (join (cur :: y :: l))
        with (cur ++ String sep (join (y :: l)))%string.
      now rewrite IH.
    + now rewrite IH, append_snoc.
Qed.

Lemma split_from_segments_no_sep (cur s : string) :
  Py.occurs sep cur = false ->
  Forall (fun x => Py.occurs sep x = false) (Py.split_from sep cur s).
Proof.
  revert cur. induction s as [|c s IH]; intros cur Hcur; simpl.
  - now constructor.
  - destruct (Ascii.eqb c sep) eqn:Hc.
    + constructor; [exact Hcur | now apply IH].
    + apply IH. clear IH. induction cur as [|d cur IHc]; simpl in *.
      * now rewrite Hc.
      * apply orb_false_elim in Hcur. destruct Hcur as [Hd Hr].
        now rewrite Hd, (IHc Hr).
Qed.

End SplitFacts.

(* ===================================================================== *)
(** * Vocabulary of the four transition operations *)
(* ===================================================================== *)

(** The exception each method names in its [except] clause. *)
Definition state_fault (op : rds_operation) : exc :=
  match op with
  | stop_db_instance | start_db_instance => InvalidDBInstanceStateFault
  | stop_db_cluster | start_db_cluster => InvalidDBClusterStateFault
  end.

Definition is_start (op : rds_operation) : bool :=
  match op with
  | start_db_instance | start_db_cluster => true
  | stop_db_instance | stop_db_cluster => false
  end.

(** Severity of the line logged for an identifier before its request. *)
Definition announce_level (op : rds_operation) : level :=
  match op with
  | stop_db_instance | stop_db_cluster => INFO
  | start_db_instance | start_db_cluster => DEBUG
  end.

Definition header_line (op : rds_operation) : string :=
  match op with
  | stop_db_instance => "> Stopping RDS database instances."
  | start_db_instance => "> Starting RDS database instances."
  | stop_db_cluster => "> Stopping RDS database clusters."
  | start_db_cluster => "> Starting RDS database clusters."
  end.

Definition announce_line (op : rds_operation) : string :=
  match op with
  | stop_db_instance => ">> Stopping RDS database instance %s."
  | start_db_instance => ">> Starting RDS database instance %s."
  | stop_db_cluster => ">> Stopping RDS database cluster %s."
  | start_db_cluster => ">> Starting RDS database cluster %s."
  end.

Definition done_line (op : rds_operation) : string :=
  match op with
  | stop_db_instance => ">> RDS database instance %s => [STOPPED]."
  | start_db_instance => ">> RDS database instance %s => [AVAILABLE]."
  | stop_db_cluster => ">> RDS database cluster %s => [STOPPED]."
  | start_db_cluster => ">> RDS database cluster %s => [AVAILABLE]."
  end.

Definition warning_line (op : rds_operation) : string :=
  match op with
  | stop_db_instance =>
      ">> Unable to stop RDS database instance %s due to invalid state."
  | start_db_instance =>
      ">> Unable to start RDS database instance %s due to invalid state."
  | stop_db_cluster =>
      ">> Unable to stop RDS database cluster %s due to invalid state."
  | start_db_cluster =>
      ">> Unable to start RDS database cluster %s due to invalid state."
  end.

(** The state the success line of an operation names. *)
Definition target_state (op : rds_operation) : string :=
  if is_start op then "[AVAILABLE]" else "[STOPPED]".

(** [sub] occurs in [s] as a substring. *)
Fixpoint contains (sub s : string) : bool :=
  String.prefix sub s ||
  match s with
  | EmptyString => false
  | String _ s' => contains sub s'
  end.

(** What the loop body of a transition method leaves in the trace for one
    identifier, given the answer to its request. *)
Definition item_events (op : rds_operation) (region name : string)
           (answer : option exc) : list event :=
  [EvLog (announce_level op) (announce_line op) [name];
   EvRds op region name answer] ++
  match answer with
  | None => [EvLog INFO (done_line op) [name]]
  | Some e =>
      if exc_eqb e (state_fault op)
      then [EvLog WARNING (warning_line op) [name]]
      else []
  end.

(** ... and how the loop body ends. *)
Definition item_result (op : rds_operation) (answer : option exc)
  : exc + unit :=
  match answer with
  | None => inr tt
  | Some e => if exc_eqb e (state_fault op) then inr tt else inl e
  end.

(** The exception an event lets escape, if any: a failed client
    construction, a failed listing, or a failed request whose exception is
    not the one the method's [except] clause names. *)
Definition uncaught (ev : event) : option exc :=
  match ev with
  | EvLog _ _ _ => None
  | EvClient _ _ a => a
  | EvGetResources _ _ _ _ (inl e) => Some e
  | EvGetResources _ _ _ _ (inr _) => None
  | EvRds op _ _ (Some e) => if exc_eqb e (state_fault op) then None else Some e
  | EvRds _ _ _ None => None
  end.

Definition benign (ev : event) : bool :=
  match uncaught ev with Some _ => false | None => true end.

Lemma exc_eqb_eq (a b : exc) : exc_eqb a b = true <-> a = b.
Proof.
  destruct a, b; simpl; try (split; (discriminate || reflexivity)).
  rewrite String.eqb_eq. split; congruence.
Qed.

Lemma exc_eqb_refl (a : exc) : exc_eqb a a = true.
Proof. now apply exc_eqb_eq. Qed.

Lemma exc_eqb_neq (a b : exc) : a <> b -> exc_eqb a b = false.
Proof.
  intros H. destruct (exc_eqb a b) eqn:E; [|reflexivity].
  now apply exc_eqb_eq in E.
Qed.

(* ===================================================================== *)
(** * The four methods are one loop *)
(* ===================================================================== *)

Section Transition.

Variable P : platform.

Definition transition_item (c : Client) (op : rds_operation) (name : string)
  : M P unit :=
  logger P (announce_level op) (announce_line op) [name] ;;
  try_except
    (rds_call P c op name ;; logger P INFO (done_line op) [name])
    (fun e => exc_eqb e (state_fault op))
    (logger P WARNING (warning_line op) [name]).

Definition transition (op : rds_operation) (region : string)
           (names : list string) : M P unit :=
  rds_client <- boto3_client P "rds" region ;;
  logger P INFO (header_line op) [] ;;
  for_each names (transition_item rds_client op).

(** The method of the class that issues [op]. *)
Definition method_of (op : rds_operation) : string -> list string -> M P unit :=
  match op with
  | stop_db_instance => _stop_database_instances P
  | start_db_instance => _start_database_instances P
  | stop_db_cluster => _stop_database_clusters P
  | start_db_cluster => _start_database_clusters P
  end.

Lemma method_of_transition (op : rds_operation) :
  method_of op = transition op.
Proof. destruct op; reflexivity. Qed.

Lemma transition_item_run (c : Client) (op : rds_operation) (name : string)
      (w : World P) :
  transition_item c op name w =
  (item_events op (region_name c) name (snd (sdk_rds P op (region_name c) name w)),
   fst (sdk_rds P op (region_name c) name w),
   item_result op (snd (sdk_rds P op (region_name c) name w))).
Proof.
  unfold transition_item, bind, try_except, rds_call, logger, item_events,
    item_result.
  destruct (sdk_rds P op (region_name c) name w) as [w' [e|]]; simpl.
  - destruct (exc_eqb e (state_fault op)); reflexivity.
  - reflexivity.
Qed.

End Transition.

(* ===================================================================== *)
(** * Observing traces: monitors and weakest preconditions *)
(* ===================================================================== *)

(** A monitor reads a trace event by event.  [wp step m post s] says: from
    any remote world, with the monitor in state [s], the run of [m] ends
    with a result and a monitor state related by [post]. *)

Section Monitors.

Variable P : platform.
Variable S : Type.
Variable step : S -> event -> S.

Definition observe (t : list event) (s : S) : S := fold_left step t s.

Lemma observe_app (t1 t2 : list event) (s : S) :
  observe (t1 ++ t2) s = observe t2 (observe t1 s).
Proof. apply fold_left_app. Qed.

Definition wp {A} (m : M P A) (post : exc + A -> S -> Prop) (s : S) : Prop :=
  forall w, post (result (m w)) (observe (trace (m w)) s).

Lemma wp_conseq {A} (m : M P A) (post post' : exc + A -> S -> Prop) (s : S) :
  wp m post s ->
  (forall r s', post r s' -> post' r s') ->
  wp m post' s.
Proof. intros H Hq w. apply Hq, H. Qed.

Lemma wp_ret {A} (a : A) (post : exc + A -> S -> Prop) (s : S) :
  post (inr a) s -> wp (ret a) post s.
Proof. intros H w. exact H. Qed.

Lemma wp_bind {A B} (m : M P A) (f : A -> M P B)
      (post : exc + B -> S -> Prop) (s : S) :
  wp m (fun r s' => match r with
                    | inl e => post (inl e) s'
                    | inr a => wp (f a) post s'
                    end) s ->
  wp (bind m f) post s.
Proof.
  intros Hm w. specialize (Hm w).
  unfold bind, trace, result in *.
  destruct (m w) as [[t1 w1] [e|a]]; simpl in *.
  - exact Hm.
  - specialize (Hm w1). unfold trace, result in Hm.
    destruct (f a w1) as [[t2 w2] r2]; simpl in *.
    now rewrite observe_app.
Qed.

Lemma wp_logger lvl fmt args (post : exc + unit -> S -> Prop) (s : S) :
  post (inr tt) (step s (EvLog lvl fmt args)) ->
  wp (logger P lvl fmt args) post s.
Proof. intros H w. exact H. Qed.

Lemma wp_client service region (post : exc + Client -> S -> Prop) (s : S) :
  (forall e, post (inl e) (step s (EvClient service region (Some e)))) ->
  post (inr {| service_name := service; region_name := region |})
       (step s (EvClient service region None)) ->
  wp (boto3_client P service region) post s.
Proof.
  intros He Hok w. unfold boto3_client, trace, result.
  destruct (sdk_client P service region w) as [w' [e|]]; simpl.
  - apply He.
  - apply Hok.
Qed.

Lemma wp_paginate c rtype key value
      (post : exc + list resource_page -> S -> Prop) (s : S) :
  (forall a, post a (step s (EvGetResources (region_name c) rtype key value a))) ->
  wp (paginate_get_resources P c rtype key value) post s.
Proof.
  intros H w. unfold paginate_get_resources, trace, result.
  destruct (sdk_get_resources P (region_name c) rtype key value w) as [w' a].
  simpl. apply H.
Qed.

Lemma wp_item c op name (post : exc + unit -> S -> Prop) (s : S) :
  (forall a, post (item_result op a)
                  (observe (item_events op (region_name c) name a) s)) ->
  wp (transition_item P c op name) post s.
Proof.
  intros H w. rewrite transition_item_run. apply H.
Qed.

(** The loop rule, with an invariant that may depend on what is left. *)
Lemma wp_for_each {A} (inv : list A -> S -> Prop) (body : A -> M P unit)
      (post : exc + unit -> S -> Prop) (xs : list A) (s : S) :
  inv xs s ->
  (forall x rest s',
     inv (x :: rest) s' ->
     wp (body x) (fun r s'' => match r with
                               | inr _ => inv rest s''
                               | inl e => post (inl e) s''
                               end) s') ->
  (forall s', inv [] s' -> post (inr tt) s') ->
  wp (for_each xs body) post s.
Proof.
  intros Hinv Hbody Hend. revert s Hinv.
  induction xs as [|x xs IH]; intros s Hinv; simpl.
  - apply wp_ret, Hend, Hinv.
  - apply wp_bind. eapply wp_conseq; [apply Hbody, Hinv|].
    intros [e|[]] s' H; [exact H | apply IH, H].
Qed.

(** The discovery method: a client, then the listing. *)
Lemma wp_get_resource_identifiers_by_tag region rtype key value
      (post : exc + list string -> S -> Prop) (s : S) :
  (forall e,
     post (inl e)
          (step s (EvClient "resourcegroupstaggingapi" region (Some e)))) ->
  (forall e,
     post (inl e)
          (step (step s (EvClient "resourcegroupstaggingapi" region None))
                (EvGetResources region rtype key value (inl e)))) ->
  (forall pages,
     post (inr (append_pages pages []))
          (step (step s (EvClient "resourcegroupstaggingapi" region None))
                (EvGetResources region rtype key value (inr pages)))) ->
  wp (_get_resource_identifiers_by_tag P region rtype key value) post s.
Proof.
  intros H1 H2 H3. unfold _get_resource_identifiers_by_tag.
  apply wp_bind, wp_client; [exact H1|].
  apply wp_bind, wp_paginate. simpl. intros [e|pages].
  - apply H2.
  - apply wp_ret, H3.
Qed.

(** A transition method: a client, the header line, then the loop. *)
Lemma wp_transition op region names (post : exc + unit -> S -> Prop) (s : S) :
  (forall e, post (inl e) (step s (EvClient "rds" region (Some e)))) ->
  wp (for_each names
        (transition_item P {| service_name := "rds"; region_name := region |}
                         op))
     post
     (step (step s (EvClient "rds" region None))
           (EvLog INFO (header_line op) [])) ->
  wp (transition P op region names) post s.
Proof.
  intros H1 H2. unfold transition.
  apply wp_bind, wp_client; [exact H1|].
  apply wp_bind, wp_logger. exact H2.
Qed.

End Monitors.

Arguments observe {S} step t s.
Arguments wp {P S} step {A} m post s.

(* ===================================================================== *)
(** * Vocabulary of the orchestration *)
(* ===================================================================== *)

Inductive category : Type := Instance | Cluster.

Inductive direction : Type := Start | Stop.

(** The resource type filter of each category, as [_execute] passes it. *)
Definition resource_type (c : category) : string :=
  match c with Instance => "rds:db" | Cluster => "rds:cluster" end.

Definition category_of (rtype : string) : option category :=
  if String.eqb rtype "rds:db" then Some Instance
  else if String.eqb rtype "rds:cluster" then Some Cluster
  else None.

Definition operation (d : direction) (c : category) : rds_operation :=
  match d, c with
  | Start, Instance => start_db_instance
  | Stop, Instance => stop_db_instance
  | Start, Cluster => start_db_cluster
  | Stop, Cluster => stop_db_cluster
  end.

Definition category_of_operation (op : rds_operation) : category :=
  match op with
  | stop_db_instance | start_db_instance => Instance
  | stop_db_cluster | start_db_cluster => Cluster
  end.

(** The direction an action value selects, if any. *)
Definition direction_of (action : string) : option direction :=
  if String.eqb action "enable" || String.eqb action "start" then Some Start
  else if String.eqb action "disable" || String.eqb action "stop" then Some Stop
  else None.

(** The identifier of one listed resource. *)
Definition resource_identifier (r : resource) : string :=
  Py.index_last (Py.split ":" (ResourceARN r)).

(** The identifiers of a listing, page after page. *)
Definition identifiers (pages : list resource_page) : list string :=
  flat_map (fun page => map resource_identifier (ResourceTagMappingList page))
           pages.

(** A start/stop request: operation, region, identifier. *)
Definition request : Type := (rds_operation * string * string)%type.

Definition rds_operation_eqb (a b : rds_operation) : bool :=
  match a, b with
  | stop_db_instance, stop_db_instance
  | start_db_instance, start_db_instance
  | stop_db_cluster, stop_db_cluster
  | start_db_cluster, start_db_cluster => true
  | _, _ => false
  end.

Definition request_eqb (a b : request) : bool :=
  let '(o1, r1, i1) := a in
  let '(o2, r2, i2) := b in
  rds_operation_eqb o1 o2 && String.eqb r1 r2 && String.eqb i1 i2.

(** The requests a listing calls for under an action: one per identifier,
    in order, of the operation the action and the listed type select. *)
Definition expected_requests (action region rtype : string)
           (pages : list resource_page) : list request :=
  match direction_of action, category_of rtype with
  | Some d, Some c =>
      map (fun id => (operation d c, region, id)) (identifiers pages)
  | _, _ => []
  end.

(** The start/stop requests of a trace, in order. *)
Fixpoint requests (t : list event) : list request :=
  match t with
  | [] => []
  | EvRds op region id _ :: t' => (op, region, id) :: requests t'
  | _ :: t' => requests t'
  end.

(** The start/stop requests of a trace up to its first listing. *)
Fixpoint requests_before_listing (t : list event) : list request :=
  match t with
  | [] => []
  | EvGetResources _ _ _ _ _ :: _ => []
  | EvRds op region id _ :: t' => (op, region, id) :: requests_before_listing t'
  | _ :: t' => requests_before_listing t'
  end.

Lemma request_eqb_refl (q : request) : request_eqb q q = true.
Proof.
  destruct q as [[o r] i]. simpl.
  rewrite !String.eqb_refl. now destruct o.
Qed.

Lemma request_eqb_eq (a b : request) : request_eqb a b = true -> a = b.
Proof.
  destruct a as [[o1 r1] i1], b as [[o2 r2] i2]. simpl.
  intros H. apply andb_prop in H. destruct H as [H Hi].
  apply andb_prop in H. destruct H as [Ho Hr].
  apply String.eqb_eq in Hi, Hr. subst.
  destruct o1, o2; simpl in Ho; congruence.
Qed.

Lemma mem_start (action : string) :
  Py.mem action ["enable"; "start"] =
  match direction_of action with Some Start => true | _ => false end.
Proof.
  unfold Py.mem, direction_of. simpl. rewrite orb_false_r.
  destruct (String.eqb action "enable" || String.eqb action "start");
    [reflexivity|].
  now destruct (String.eqb action "disable" || String.eqb action "stop").
Qed.

Lemma mem_stop (action : string) :
  Py.mem action ["enable"; "start"] = false ->
  Py.mem action ["disable"; "stop"] =
  match direction_of action with Some Stop => true | _ => false end.
Proof.
  unfold Py.mem, direction_of. simpl. rewrite !orb_false_r.
  intros ->.
  now destruct (String.eqb action "disable" || String.eqb action "stop").
Qed.

(** ** The listing loops append, in order *)

Lemma append_resources_spec (resources : list resource) (acc : list string) :
  append_resources resources acc = acc ++ map resource_identifier resources.
Proof.
  revert acc. induction resources as [|r rs IH]; intros acc; simpl.
  - now rewrite app_nil_r.
  - rewrite IH, <- app_assoc. reflexivity.
Qed.

Lemma append_pages_spec (pages : list resource_page) (acc : list string) :
  append_pages pages acc = acc ++ identifiers pages.
Proof.
  revert acc. induction pages as [|p ps IH]; intros acc; simpl.
  - now rewrite app_nil_r.
  - rewrite IH, append_resources_spec, <- app_assoc. reflexivity.
Qed.

Lemma append_pages_identifiers (pages : list resource_page) :
  append_pages pages [] = identifiers pages.
Proof. apply append_pages_spec. Qed.

(* ===================================================================== *)
(** * The guarded transition of [_execute], for either category *)
(* ===================================================================== *)

Section Guard.

Variable P : platform.
Variable self : settings.

Definition enable_disable (c : category) : string -> list string -> M P unit :=
  match c with
  | Instance => enable_disable_instances P self
  | Cluster => enable_disable_clusters P self
  end.

Variable S : Type.
Variable step : S -> event -> S.

(** Nothing happens without identifiers or without a direction; otherwise
    the method of the selected operation runs. *)
Lemma wp_enable_disable (c : category) (region : string)
      (names : list string) (post : exc + unit -> S -> Prop) (s : S) :
  (names = [] \/ direction_of (ACTION self) = None -> post (inr tt) s) ->
  (forall d, names <> [] -> direction_of (ACTION self) = Some d ->
             wp step (transition P (operation d c) region names) post s) ->
  wp step (enable_disable c region names) post s.
Proof.
  intros Hskip Hrun.
  assert (Hunfold : enable_disable c region names =
    if Nat.ltb 0 (List.length names) then
      if Py.mem (ACTION self) ["enable"; "start"] then
        transition P (operation Start c) region names
      else if Py.mem (ACTION self) ["disable"; "stop"] then
        transition P (operation Stop c) region names
      else ret tt
    else ret tt).
  { destruct c; reflexivity. }
  rewrite Hunfold. clear Hunfold.
  replace (Nat.ltb 0 (List.length names))
    with (match names with [] => false | _ => true end)
    by (destruct names; reflexivity).
  destruct names as [|n names].
  - apply wp_ret, Hskip. now left.
  - destruct (Py.mem (ACTION self) ["enable"; "start"]) eqn:E1.
    + rewrite mem_start in E1.
      destruct (direction_of (ACTION self)) as [[|]|] eqn:D; try discriminate.
      apply Hrun; [discriminate | reflexivity].
    + pose proof (mem_stop _ E1) as E2. rewrite mem_start in E1.
      destruct (direction_of (ACTION self)) as [[|]|] eqn:D; try discriminate;
        rewrite E2.
      * apply Hrun; [discriminate | reflexivity].
      * apply wp_ret, Hskip. now right.
Qed.

End Guard.

(* ===================================================================== *)
(** * Monitor 1: requests follow listings *)
(* ===================================================================== *)

(** The monitor holds the requests still owed to the latest listing.  A
    listing is accepted only when nothing is owed and its type filter is
    one of the two categories, and then owes [expected_requests]; a
    start/stop request is accepted only if it is the next one owed.  [None]
    is rejection. *)

Section Conformance.

Variable P : platform.
Variable self : settings.

Definition conform_step (s : option (list request)) (ev : event)
  : option (list request) :=
  match s with
  | None => None
  | Some owed =>
      match ev with
      | EvGetResources region rtype _ _ answer =>
          match owed, category_of rtype with
          | [], Some _ =>
              Some match answer with
                   | inr pages =>
                       expected_requests (ACTION self) region rtype pages
                   | inl _ => []
                   end
          | _, _ => None
          end
      | EvRds op region id _ =>
          match owed with
          | q :: rest =>
              if request_eqb q (op, region, id) then Some rest else None
          | [] => None
          end
      | _ => Some owed
      end
  end.

(** Accepted, and nothing owed if the run returned. *)
Definition drained {A} (r : exc + A) (s : option (list request)) : Prop :=
  exists owed, s = Some owed /\ (forall a, r = inr a -> owed = []).

Lemma conform_item (op : rds_operation) (region name : string)
      (rest : list request) (a : option exc) :
  observe conform_step (item_events op region name a)
          (Some ((op, region, name) :: rest)) = Some rest.
Proof.
  unfold item_events.
  destruct a as [e|]; [destruct (exc_eqb e (state_fault op))|];
    cbn -[request_eqb]; rewrite request_eqb_refl; reflexivity.
Qed.

Lemma conform_transition (op : rds_operation) (region : string)
      (names : list string) :
  wp conform_step (transition P op region names) drained
     (Some (map (fun id => (op, region, id)) names)).
Proof.
  apply wp_transition.
  - intros e. simpl. eexists. split; [reflexivity | discriminate].
  - simpl.
    apply wp_for_each
      with (inv := fun rest s =>
                     s = Some (map (fun id => (op, region, id)) rest)).
    + reflexivity.
    + intros x rest s' ->. apply wp_item. intros a.
      change (map (fun id => (op, region, id)) (x :: rest))
        with ((op, region, x) :: map (fun id => (op, region, id)) rest).
      rewrite conform_item. unfold item_result.
      destruct a as [e|]; [|reflexivity].
      destruct (exc_eqb e (state_fault op));
        [reflexivity | eexists; split; [reflexivity | discriminate]].
    + intros s' ->. simpl. eexists. split; reflexivity.
Qed.

Lemma category_of_resource_type (c : category) :
  category_of (resource_type c) = Some c.
Proof. now destruct c. Qed.

Lemma conform_enable_disable (c : category) (region : string)
      (pages : list resource_page) :
  wp conform_step (enable_disable P self c region (identifiers pages)) drained
     (Some (expected_requests (ACTION self) region (resource_type c) pages)).
Proof.
  unfold expected_requests. rewrite category_of_resource_type.
  apply wp_enable_disable.
  - intros [H|H].
    + rewrite H. exists []. split; [|reflexivity].
      now destruct (direction_of (ACTION self)).
    + rewrite H. exists []. now split.
  - intros d _ ->. apply conform_transition.
Qed.

Lemma conform_execute_region (region : string) :
  wp conform_step (execute_region P self region)
     (fun r s => match r with inr _ => s = Some [] | inl _ => drained r s end)
     (Some []).
Proof.
  assert (Hfail : forall (A : Type) (e : exc) (owed : list request),
             @drained A (inl e) (Some owed)).
  { intros A e owed. exists owed. split; [reflexivity | discriminate]. }
  unfold execute_region.
  apply wp_bind, wp_logger. simpl.
  apply wp_bind, wp_get_resource_identifiers_by_tag; simpl;
    try (intros e; apply Hfail).
  intros pages. rewrite append_pages_identifiers.
  apply wp_bind, wp_logger. simpl.
  apply wp_bind.
  eapply wp_conseq;
    [apply (conform_enable_disable Instance region pages)|].
  intros [e|[]] s' (owed & -> & Howed); [apply Hfail|].
  rewrite (Howed tt eq_refl).
  apply wp_bind, wp_logger. simpl.
  apply wp_bind, wp_get_resource_identifiers_by_tag; simpl;
    try (intros e; apply Hfail).
  intros pages'. rewrite append_pages_identifiers.
  apply wp_bind, wp_logger. simpl.
  eapply wp_conseq;
    [apply (conform_enable_disable Cluster region pages')|].
  intros [e|[]] s'' (owed' & -> & Howed'); [apply Hfail|].
  now rewrite (Howed' tt eq_refl).
Qed.

Lemma conform_execute :
  wp conform_step (_execute P self) drained (Some []).
Proof.
  unfold _execute.
  apply wp_bind, wp_logger. simpl.
  apply wp_bind.
  apply wp_for_each with (inv := fun _ s => s = Some []).
  - reflexivity.
  - intros region rest s' ->.
    eapply wp_conseq; [apply conform_execute_region|].
    intros [e|[]] s''; [|intros ->; reflexivity].
    intros (owed & -> & _). exists owed. split; [reflexivity | discriminate].
  - intros s' ->.
    apply wp_bind, wp_logger. simpl. apply wp_ret.
    exists []. now split.
Qed.

End Conformance.

(** ** What acceptance by monitor 1 means for a trace *)

Section ConformanceMeaning.

Variable self : settings.

Local Abbreviation accept := (observe (conform_step self)).

Lemma accept_cons (ev : event) (t : list event) (s : option (list request)) :
  accept (ev :: t) s = accept t (conform_step self s ev).
Proof. reflexivity. Qed.

Lemma accept_none (t : list event) : accept t None = None.
Proof. induction t as [|ev t IH]; [reflexivity | exact IH]. Qed.

(** After an accepted listing, the monitor owes exactly what the listing
    calls for. *)
Lemma accept_listing (t1 t2 : list event) region rtype key value pages
      (s : option (list request)) (owed : list request) :
  accept (t1 ++ EvGetResources region rtype key value (inr pages) :: t2) s
    = Some owed ->
  (exists c, category_of rtype = Some c) /\
  accept t2 (Some (expected_requests (ACTION self) region rtype pages))
    = Some owed.
Proof.
  rewrite observe_app, accept_cons.
  destruct (accept t1 s) as [[|q l]|]; simpl conform_step.
  - destruct (category_of rtype) as [c|].
    + intros H. split; [now exists c | exact H].
    + now rewrite accept_none.
  - now rewrite accept_none.
  - now rewrite accept_none.
Qed.

(** The requests up to the next listing are the first ones owed ... *)
Lemma accept_owed_prefix (t : list event) (owed left : list request) :
  accept t (Some owed) = Some left ->
  exists rest, owed = requests_before_listing t ++ rest.
Proof.
  revert owed. induction t as [|ev t IH]; intros owed H.
  - now exists owed.
  - rewrite accept_cons in H. destruct ev as [l f a|sv rg a|rg ty k v a|op rg id a];
      simpl in H |- *.
    + now apply IH.
    + now apply IH.
    + destruct owed; [now exists [] | now rewrite accept_none in H].
    + destruct owed as [|q owed]; [now rewrite accept_none in H|].
      destruct (request_eqb q (op, rg, id)) eqn:E;
        [|now rewrite accept_none in H].
      apply request_eqb_eq in E. subst q.
      destruct (IH _ H) as [rest ->]. now exists rest.
Qed.

(** ... and all of them when nothing is left owed at the end. *)
Lemma accept_owed_all (t : list event) (owed : list request) :
  accept t (Some owed) = Some [] ->
  owed = requests_before_listing t.
Proof.
  revert owed. induction t as [|ev t IH]; intros owed H.
  - injection H as ->. reflexivity.
  - rewrite accept_cons in H. destruct ev as [l f a|sv rg a|rg ty k v a|op rg id a];
      simpl in H |- *.
    + now apply IH.
    + now apply IH.
    + destruct owed; [reflexivity | now rewrite accept_none in H].
    + destruct owed as [|q owed]; [now rewrite accept_none in H|].
      destruct (request_eqb q (op, rg, id)) eqn:E;
        [|now rewrite accept_none in H].
      apply request_eqb_eq in E. subst q.
      now rewrite (IH _ H).
Qed.

(** Every request of an accepted trace was owed: by the initial debt or by
    a listing. *)
Lemma accept_requests (good : request -> Prop) :
  (forall region rtype pages q,
     In q (expected_requests (ACTION self) region rtype pages) -> good q) ->
  forall (t : list event) (owed left : list request),
    Forall good owed ->
    accept t (Some owed) = Some left ->
    Forall good (requests t).
Proof.
  intros Hexp t. induction t as [|ev t IH]; intros owed left Hgood H.
  - constructor.
  - rewrite accept_cons in H. destruct ev as [l f a|sv rg a|rg ty k v a|op rg id a];
      simpl in H |- *.
    + now apply (IH owed left).
    + now apply (IH owed left).
    + destruct owed; [|now rewrite accept_none in H].
      destruct (category_of ty); [|now rewrite accept_none in H].
      refine (IH _ left _ H). destruct a as [e|pages]; [constructor|].
      apply Forall_forall. intros q Hq. now apply (Hexp rg ty pages).
    + destruct owed as [|q owed]; [now rewrite accept_none in H|].
      destruct (request_eqb q (op, rg, id)) eqn:E;
        [|now rewrite accept_none in H].
      apply request_eqb_eq in E. subst q.
      inversion Hgood; subst. constructor; [assumption|].
      now apply (IH owed left).
Qed.

Lemma expected_requests_direction (region rtype : string)
      (pages : list resource_page) (d : direction) (q : request) :
  direction_of (ACTION self) = Some d ->
  In q (expected_requests (ACTION self) region rtype pages) ->
  exists c id, category_of rtype = Some c /\ q = (operation d c, region, id) /\
               In id (identifiers pages).
Proof.
  unfold expected_requests. intros ->.
  destruct (category_of rtype) as [c|]; [|intros []].
  intros H. apply in_map_iff in H. destruct H as (id & <- & Hid).
  now exists c, id.
Qed.

Lemma expected_requests_no_direction (region rtype : string)
      (pages : list resource_page) :
  direction_of (ACTION self) = None ->
  expected_requests (ACTION self) region rtype pages = [].
Proof. unfold expected_requests. now intros ->. Qed.

End ConformanceMeaning.

(* ===================================================================== *)
(** * Monitor 2: how a run ends *)
(* ===================================================================== *)

(** The monitor remembers whether an exception has escaped: [Running] while
    none has, [Aborted e] right after the event that let [e] escape, and
    [Inconsistent] if anything at all follows that event. *)

Inductive verdict : Type := Running | Aborted (e : exc) | Inconsistent.

Definition verdict_step (v : verdict) (ev : event) : verdict :=
  match v with
  | Running =>
      match uncaught ev with
      | Some e => Aborted e
      | None => Running
      end
  | Aborted _ | Inconsistent => Inconsistent
  end.

(** The result agrees with the verdict. *)
Definition faithful {A} (r : exc + A) (v : verdict) : Prop :=
  match r with
  | inr _ => v = Running
  | inl e => v = Aborted e
  end.

Section Verdict.

Variable P : platform.
Variable self : settings.

Lemma verdict_transition (op : rds_operation) (region : string)
      (names : list string) :
  wp verdict_step (transition P op region names) faithful Running.
Proof.
  apply wp_transition.
  - intros e. reflexivity.
  - simpl. apply wp_for_each with (inv := fun _ v => v = Running).
    + reflexivity.
    + intros x rest v ->. apply wp_item. intros a.
      unfold item_events, item_result.
      destruct a as [e|]; simpl; [|reflexivity].
      destruct (exc_eqb e (state_fault op)); reflexivity.
    + intros v ->. reflexivity.
Qed.

Lemma verdict_enable_disable (c : category) (region : string)
      (names : list string) :
  wp verdict_step (enable_disable P self c region names) faithful Running.
Proof.
  apply wp_enable_disable.
  - intros _. reflexivity.
  - intros d _ _. apply verdict_transition.
Qed.

Lemma verdict_execute_region (region : string) :
  wp verdict_step (execute_region P self region) faithful Running.
Proof.
  unfold execute_region.
  apply wp_bind, wp_logger. simpl.
  apply wp_bind, wp_get_resource_identifiers_by_tag; simpl;
    try (intros e; reflexivity).
  intros pages.
  apply wp_bind, wp_logger. simpl.
  apply wp_bind.
  eapply wp_conseq; [apply (verdict_enable_disable Instance)|].
  intros [e|[]] v H; [exact H|]. simpl in H. subst v.
  apply wp_bind, wp_logger. simpl.
  apply wp_bind, wp_get_resource_identifiers_by_tag; simpl;
    try (intros e; reflexivity).
  intros pages'.
  apply wp_bind, wp_logger. simpl.
  apply (verdict_enable_disable Cluster).
Qed.

Lemma verdict_execute :
  wp verdict_step (_execute P self)
     (fun r v => faithful r v /\
                 forall x, r = inr x -> x = _build_response_ok P)
     Running.
Proof.
  unfold _execute.
  apply wp_bind, wp_logger. simpl.
  apply wp_bind.
  apply wp_for_each with (inv := fun _ v => v = Running).
  - reflexivity.
  - intros region rest v ->.
    eapply wp_conseq; [apply verdict_execute_region|].
    intros [e|[]] v H; [|exact H]. split; [exact H | discriminate].
  - intros v ->.
    apply wp_bind, wp_logger. simpl. apply wp_ret.
    split; [reflexivity | congruence].
Qed.

End Verdict.

(** ** What the verdict means for a trace *)

Lemma verdict_stuck (t : list event) :
  observe verdict_step t Inconsistent = Inconsistent.
Proof. induction t as [|ev t IH]; [reflexivity | exact IH]. Qed.

Lemma verdict_after_abort (t : list event) (e : exc) :
  observe verdict_step t (Aborted e) =
  match t with [] => Aborted e | _ :: _ => Inconsistent end.
Proof. destruct t; [reflexivity | apply verdict_stuck]. Qed.

(** An event that lets an exception escape can only be the last one. *)
Lemma verdict_uncaught (t1 t2 : list event) (ev : event) (e : exc) :
  uncaught ev = Some e ->
  observe verdict_step (t1 ++ ev :: t2) Running <> Inconsistent ->
  t2 = [] /\ observe verdict_step (t1 ++ ev :: t2) Running = Aborted e.
Proof.
  intros Hev. rewrite observe_app.
  change (observe verdict_step (ev :: t2) (observe verdict_step t1 Running))
    with (observe verdict_step t2
            (verdict_step (observe verdict_step t1 Running) ev)).
  destruct (observe verdict_step t1 Running); simpl verdict_step.
  - rewrite Hev, verdict_after_abort. destruct t2; [now split | congruence].
  - rewrite verdict_stuck. congruence.
  - rewrite verdict_stuck. congruence.
Qed.

Lemma verdict_running (t : list event) :
  observe verdict_step t Running = Running <-> forallb benign t = true.
Proof.
  induction t as [|ev t IH]; [now split|].
  change (observe verdict_step (ev :: t) Running)
    with (observe verdict_step t (verdict_step Running ev)).
  simpl. unfold benign. destruct (uncaught ev) as [e|]; simpl.
  - rewrite verdict_after_abort. split; [now destruct t | discriminate].
  - exact IH.
Qed.

(* ===================================================================== *)
(** * A concrete platform *)
(* ===================================================================== *)

(** A small account: two instances in us-east-1 (listed on two pages) and
    one cluster in eu-west-1 carry the tag env=scheduled-off.  The remote
    state records which identifiers are stopped; stopping a stopped
    resource, or starting a running one, is answered with the state fault
    of its category.  Requests on the identifiers in [denied] are refused
    with an access error. *)

Module Scenario.

Record account : Type := {
  stopped : list string;
  denied : list string
}.

Definition tagged (region rtype : string) : list resource_page :=
  if String.eqb region "us-east-1" && String.eqb rtype "rds:db" then
    [ {| ResourceTagMappingList :=
           [ {| ResourceARN := "arn:aws:rds:us-east-1:123456789012:db:db-1" |} ] |};
      {| ResourceTagMappingList :=
           [ {| ResourceARN := "arn:aws:rds:us-east-1:123456789012:db:db-2" |} ] |} ]
  else if String.eqb region "eu-west-1" && String.eqb rtype "rds:cluster" then
    [ {| ResourceTagMappingList :=
           [ {| ResourceARN :=
                  "arn:aws:rds:eu-west-1:123456789012:cluster:cluster-9" |} ] |} ]
  else
    [ {| ResourceTagMappingList := [] |} ].

Definition get_resources (region rtype key value : string) (w : account)
  : account * (exc + list resource_page) :=
  if String.eqb key "env" && String.eqb value "scheduled-off"
  then (w, inr (tagged region rtype))
  else (w, inr [ {| ResourceTagMappingList := [] |} ]).

Definition remove (id : string) (l : list string) : list string :=
  filter (fun x => negb (String.eqb x id)) l.

Definition rds (op : rds_operation) (region id : string) (w : account)
  : account * option exc :=
  if Py.mem id (denied w) then (w, Some (OtherError "AccessDenied"))
  else if is_start op then
    if Py.mem id (stopped w)
    then ({| stopped := remove id (stopped w); denied := denied w |}, None)
    else (w, Some (state_fault op))
  else
    if Py.mem id (stopped w)
    then (w, Some (state_fault op))
    else ({| stopped := id :: stopped w; denied := denied w |}, None).

Definition aws : platform := {|
  World := account;
  sdk_client := fun _ _ w => (w, None);
  sdk_get_resources := get_resources;
  sdk_rds := rds;
  Response := string;
  _build_response_ok := "OK"
|}.

Definition config (action regions : string) : settings := {|
  ACTION := action;
  RESOURCE_TAG_KEY := "env";
  RESOURCE_TAG_VALUE := "scheduled-off";
  AWS_REGIONS := Py.split "," regions
|}.

(** Everything running, nothing denied. *)
Definition all_running : account := {| stopped := []; denied := [] |}.

(** db-1 is already stopped. *)
Definition db1_stopped : account := {| stopped := ["db-1"]; denied := [] |}.

(** Requests on db-1 are refused. *)
Definition db1_denied : account := {| stopped := []; denied := ["db-1"] |}.

(** Everything stopped, nothing denied. *)
Definition all_stopped : account :=
  {| stopped := ["db-1"; "db-2"; "cluster-9"]; denied := [] |}.

End Scenario.

(* ===================================================================== *)
(** * Discovery *)
(* ===================================================================== *)

(** The spec's words for the identifier: the text after the last separator
    of the name (the whole name when it holds no separator). *)
Fixpoint after_last (sep : ascii) (s : string) : string :=
  match s with
  | EmptyString => EmptyString
  | String c s' =>
      if Py.occurs sep s' then after_last sep s'
      else if Ascii.eqb c sep then s'
      else String c s'
  end.

(** All resources of a listing, page after page. *)
Definition listed (pages : list resource_page) : list resource :=
  flat_map ResourceTagMappingList pages.

Lemma occurs_append (sep : ascii) (a b : string) :
  Py.occurs sep (a ++ b) = Py.occurs sep a || Py.occurs sep b.
Proof.
  induction a as [|c a IH]; simpl; [reflexivity|].
  now rewrite IH, orb_assoc.
Qed.

Lemma after_last_decompose (sep : ascii) (prefix id : string) :
  Py.occurs sep id = false ->
  after_last sep (prefix ++ String sep id) = id.
Proof.
  intros Hid. induction prefix as [|c p IH]; simpl.
  - now rewrite Hid, Ascii.eqb_refl.
  - rewrite occurs_append. simpl. rewrite Ascii.eqb_refl, orb_true_r.
    exact IH.
Qed.

Lemma after_last_whole (sep : ascii) (s : string) :
  Py.occurs sep s = false -> after_last sep s = s.
Proof.
  induction s as [|c s IH]; simpl; [reflexivity|].
  intros H. apply orb_false_elim in H. destruct H as [Hc Hs].
  now rewrite Hs, Hc.
Qed.

(** Either the name has no separator, or it splits at its last one. *)
Lemma last_separator (sep : ascii) (s : string) :
  Py.occurs sep s = false \/
  exists prefix id, s = (prefix ++ String sep id)%string /\
                    Py.occurs sep id = false.
Proof.
  induction s as [|c s IH]; [now left|].
  destruct IH as [Hs|(p & i & -> & Hi)].
  - destruct (Ascii.eqb_spec c sep) as [->|Hne].
    + right. exists EmptyString, s. now split.
    + left. simpl. rewrite Hs.
      now destruct (Ascii.eqb_spec c sep).
  - right. exists (String c p), i. now split.
Qed.

Lemma index_last_split (sep : ascii) (s : string) :
  Py.index_last (Py.split sep s) = after_last sep s.
Proof.
  unfold Py.split.
  destruct (last_separator sep s) as [Hs|(p & i & -> & Hi)].
  - now rewrite split_from_no_sep, after_last_whole.
  - now rewrite last_split_from, after_last_decompose.
Qed.

Lemma resource_identifier_no_colon (r : resource) :
  Py.occurs ":" (resource_identifier r) = false.
Proof. now apply last_split_from_no_sep. Qed.

Lemma identifiers_listed (pages : list resource_page) :
  identifiers pages = map resource_identifier (listed pages).
Proof.
  unfold identifiers, listed.
  induction pages as [|p ps IH]; simpl; [reflexivity|].
  now rewrite map_app, IH.
Qed.

(** What the discovery method returns comes from the listing it made. *)
Lemma get_resource_identifiers_by_tag_returns (P : platform)
      (region rtype key value : string) (w : World P) (ids : list string) :
  result (_get_resource_identifiers_by_tag P region rtype key value w)
    = inr ids ->
  exists pages,
    trace (_get_resource_identifiers_by_tag P region rtype key value w) =
      [EvClient "resourcegroupstaggingapi" region None;
       EvGetResources region rtype key value (inr pages)] /\
    ids = append_pages pages [].
Proof.
  unfold _get_resource_identifiers_by_tag, bind, boto3_client,
    paginate_get_resources, ret, trace, result.
  destruct (sdk_client P "resourcegroupstaggingapi" region w) as [w1 [e|]];
    simpl; [discriminate|].
  destruct (sdk_get_resources P region rtype key value w1) as [w2 [e|pages]];
    simpl; [discriminate|].
  intros [= <-]. now exists pages.
Qed.

(** C7. For every resource the tagging API lists, the identifier that
    discovery returns at its position is the last segment of the
    resource's ARN split on ':', which is the text after the last ':' of
    the ARN: it holds no ':' and, whenever the ARN reads
    [prefix ++ ":" ++ id] with no ':' in [id], it is [id]. *)
Theorem C7_identifier_is_text_after_last_colon :
  forall (P : platform) (region rtype key value : string) (w : World P)
         (ids : list string),
    result (_get_resource_identifiers_by_tag P region rtype key value w)
      = inr ids ->
    exists pages,
      In (EvGetResources region rtype key value (inr pages))
         (trace (_get_resource_identifiers_by_tag P region rtype key value w))
      /\
      Forall2
        (fun (r : resource) (id : string) =>
           id = Py.index_last (Py.split ":" (ResourceARN r)) /\
           id = after_last ":" (ResourceARN r) /\
           Py.occurs ":" id = false /\
           forall prefix suffix,
             ResourceARN r = (prefix ++ ":" ++ suffix)%string ->
             Py.occurs ":" suffix = false ->
             id = suffix)
        (listed pages) ids.
Proof.
  intros P region rtype key value w ids H.
  destruct (get_resource_identifiers_by_tag_returns _ _ _ _ _ _ _ H)
    as (pages & Ht & ->).
  exists pages. split; [rewrite Ht; simpl; auto|].
  rewrite append_pages_identifiers, identifiers_listed.
  induction (listed pages) as [|r rs IH]; simpl; constructor; [|exact IH].
  split; [reflexivity|]. split; [apply index_last_split|].
  split; [apply resource_identifier_no_colon|].
  intros prefix suffix Harn Hs. unfold resource_identifier.
  rewrite Harn. now apply last_split_from.
Qed.

Lemma C7_witness :
  exists pages,
    In (EvGetResources "us-east-1" "rds:db" "env" "scheduled-off" (inr pages))
       (trace (_get_resource_identifiers_by_tag Scenario.aws "us-east-1"
                 "rds:db" "env" "scheduled-off" Scenario.all_running)) /\
    Forall2
      (fun (r : resource) (id : string) =>
         id = Py.index_last (Py.split ":" (ResourceARN r)) /\
         id = after_last ":" (ResourceARN r) /\
         Py.occurs ":" id = false /\
         forall prefix suffix,
           ResourceARN r = (prefix ++ ":" ++ suffix)%string ->
           Py.occurs ":" suffix = false ->
           id = suffix)
      (listed pages) ["db-1"; "db-2"].
Proof.
  apply (C7_identifier_is_text_after_last_colon Scenario.aws "us-east-1"
           "rds:db" "env" "scheduled-off" Scenario.all_running).
  reflexivity.
Defined.

(** C8. The discovery result is the concatenation of the extracted
    identifiers of every page, in page order and within-page order: as
    many identifiers as listed resources, nothing reordered, nothing
    dropped, duplicates kept. *)
Theorem C8_discovery_is_page_concatenation :
  forall (P : platform) (region rtype key value : string) (w : World P)
         (ids : list string),
    result (_get_resource_identifiers_by_tag P region rtype key value w)
      = inr ids ->
    exists pages,
      In (EvGetResources region rtype key value (inr pages))
         (trace (_get_resource_identifiers_by_tag P region rtype key value w))
      /\
      ids = concat (map (fun page =>
                           map (fun r => Py.index_last
                                           (Py.split ":" (ResourceARN r)))
                               (ResourceTagMappingList page))
                        pages) /\
      List.length ids =
        list_sum (map (fun page => List.length (ResourceTagMappingList page))
                      pages) /\
      forall id, count_occ string_dec ids id =
                 list_sum (map (fun page =>
                                  count_occ string_dec
                                    (map resource_identifier
                                         (ResourceTagMappingList page)) id)
                               pages).
Proof.
  intros P region rtype key value w ids H.
  destruct (get_resource_identifiers_by_tag_returns _ _ _ _ _ _ _ H)
    as (pages & Ht & ->).
  exists pages. split; [rewrite Ht; simpl; auto|].
  rewrite append_pages_identifiers. unfold identifiers.
  rewrite flat_map_concat_map. split; [reflexivity|].
  clear H Ht. split.
  - induction pages as [|p ps IH]; simpl; [reflexivity|].
    now rewrite length_app, length_map, IH.
  - intros id. induction pages as [|p ps IH]; simpl; [reflexivity|].
    now rewrite count_occ_app, IH.
Qed.

Lemma C8_witness :
  exists pages,
    In (EvGetResources "us-east-1" "rds:db" "env" "scheduled-off" (inr pages))
       (trace (_get_resource_identifiers_by_tag Scenario.aws "us-east-1"
                 "rds:db" "env" "scheduled-off" Scenario.all_running)) /\
    ["db-1"; "db-2"] =
      concat (map (fun page =>
                     map (fun r => Py.index_last (Py.split ":" (ResourceARN r)))
                         (ResourceTagMappingList page))
                  pages) /\
    List.length ["db-1"; "db-2"] =
      list_sum (map (fun page => List.length (ResourceTagMappingList page))
                    pages) /\
    forall id, count_occ string_dec ["db-1"; "db-2"] id =
               list_sum (map (fun page =>
                                count_occ string_dec
                                  (map resource_identifier
                                       (ResourceTagMappingList page)) id)
                             pages).
Proof.
  apply (C8_discovery_is_page_concatenation Scenario.aws "us-east-1"
           "rds:db" "env" "scheduled-off" Scenario.all_running).
  reflexivity.
Defined.

(* ===================================================================== *)
(** * What the monitors say about an invocation *)
(* ===================================================================== *)

Section Invocation.

Variable P : platform.
Variable self : settings.
Variable w : World P.

Lemma execute_drained :
  exists owed,
    observe (conform_step self) (trace (_execute P self w)) (Some [])
      = Some owed /\
    (forall x, result (_execute P self w) = inr x -> owed = []).
Proof. exact (conform_execute P self w). Qed.

Lemma execute_faithful :
  faithful (result (_execute P self w))
           (observe verdict_step (trace (_execute P self w)) Running).
Proof. exact (proj1 (verdict_execute P self w)). Qed.

(** The invocation returns, with the success payload, exactly when no event
    of its trace let an exception escape. *)
Lemma execute_returns_iff :
  result (_execute P self w) = inr (_build_response_ok P) <->
  forallb benign (trace (_execute P self w)) = true.
Proof.
  destruct (verdict_execute P self w) as [Hf Hok].
  rewrite <- verdict_running.
  destruct (result (_execute P self w)) as [e|x]; simpl in Hf.
  - rewrite Hf. split; discriminate.
  - rewrite Hf, (Hok x eq_refl). now split.
Qed.

(** An escaping exception ends the invocation on the spot and is its
    result. *)
Lemma execute_uncaught (t1 t2 : list event) (ev : event) (e : exc) :
  trace (_execute P self w) = t1 ++ ev :: t2 ->
  uncaught ev = Some e ->
  t2 = [] /\ result (_execute P self w) = inl e.
Proof.
  intros Ht Hev. pose proof execute_faithful as Hf. rewrite Ht in Hf.
  destruct (verdict_uncaught t1 t2 ev e Hev) as [-> Hv].
  - destruct (result (_execute P self w)); simpl in Hf; rewrite Hf;
      discriminate.
  - split; [reflexivity|]. rewrite Hv in Hf.
    destruct (result (_execute P self w)); simpl in Hf; congruence.
Qed.

End Invocation.

Lemma direction_of_start (action : string) :
  action = "start" \/ action = "enable" -> direction_of action = Some Start.
Proof. now intros [->| ->]. Qed.

Lemma direction_of_stop (action : string) :
  action = "stop" \/ action = "disable" -> direction_of action = Some Stop.
Proof. now intros [->| ->]. Qed.

Lemma direction_of_other (action : string) :
  action <> "start" -> action <> "enable" ->
  action <> "stop" -> action <> "disable" ->
  direction_of action = None.
Proof.
  intros H1 H2 H3 H4. unfold direction_of.
  apply String.eqb_neq in H1, H2, H3, H4. now rewrite H1, H2, H3, H4.
Qed.

(** The action values that select each direction. *)
Definition selects (action : string) (d : direction) : Prop :=
  match d with
  | Start => action = "start" \/ action = "enable"
  | Stop => action = "stop" \/ action = "disable"
  end.

Lemma direction_of_selects (action : string) (d : direction) :
  selects action d -> direction_of action = Some d.
Proof.
  destruct d; [apply direction_of_start | apply direction_of_stop].
Qed.

(** C1. With action 'start' or 'enable' (direction Start), respectively
    'stop' or 'disable' (direction Stop): every start/stop request of the
    invocation is of the selected direction, never of the other one; and
    after each listing, the requests issued up to the next listing are
    requests of the selected direction and of the listed category, in
    that region, one per returned identifier in order, none twice and none
    else -- all of them when the invocation returns, and the first ones of
    them when an escaping exception cuts it short. *)
Theorem C1_every_discovered_identifier_gets_its_request :
  forall (P : platform) (self : settings) (w : World P) (d : direction),
    selects (ACTION self) d ->
    (forall op region id,
       In (op, region, id) (requests (trace (_execute P self w))) ->
       exists c, op = operation d c) /\
    (forall t1 region rtype key value pages t2,
       trace (_execute P self w) =
         t1 ++ EvGetResources region rtype key value (inr pages) :: t2 ->
       exists c rest,
         category_of rtype = Some c /\
         map (fun id => (operation d c, region, id)) (identifiers pages) =
           requests_before_listing t2 ++ rest /\
         (forall x, result (_execute P self w) = inr x -> rest = [])).
Proof.
  intros P self w d Hd. apply direction_of_selects in Hd.
  destruct (execute_drained P self w) as (owed & Hacc & Hdone).
  split.
  - intros op region id Hin.
    assert (Hall : Forall (fun q : request => exists c, fst (fst q) = operation d c)
                          (requests (trace (_execute P self w)))).
    { apply (accept_requests self) with (owed := []) (left := owed);
        [|constructor|exact Hacc].
      intros rg ty pages q Hq.
      destruct (expected_requests_direction self rg ty pages d q Hd Hq)
        as (c & i & _ & -> & _). now exists c. }
    rewrite Forall_forall in Hall. exact (Hall _ Hin).
  - intros t1 region rtype key value pages t2 Ht. rewrite Ht in Hacc.
    apply accept_listing in Hacc. destruct Hacc as [[c Hc] Hacc].
    unfold expected_requests in Hacc. rewrite Hd, Hc in Hacc.
    destruct (accept_owed_prefix self _ _ _ Hacc) as [rest Hrest].
    exists c, rest. split; [exact Hc|]. split; [exact Hrest|].
    intros x Hx. rewrite (Hdone x Hx) in Hacc.
    apply accept_owed_all in Hacc. rewrite Hacc in Hrest.
    rewrite <- (app_nil_r (requests_before_listing t2)) in Hrest at 1.
    now apply app_inv_head in Hrest.
Qed.

Lemma C1_witness :
  (forall op region id,
     In (op, region, id)
        (requests (trace (_execute Scenario.aws
                            (Scenario.config "start" "us-east-1,eu-west-1")
                            Scenario.all_stopped))) ->
     exists c, op = operation Start c) /\
  exists c rest,
    category_of "rds:db" = Some c /\
    map (fun id => (operation Start c, "us-east-1", id))
        (identifiers (Scenario.tagged "us-east-1" "rds:db")) =
    requests_before_listing
      (skipn 4 (trace (_execute Scenario.aws
                         (Scenario.config "start" "us-east-1,eu-west-1")
                         Scenario.all_stopped))) ++ rest /\
    rest = [].
Proof.
  pose (run := _execute Scenario.aws
                 (Scenario.config "start" "us-east-1,eu-west-1")
                 Scenario.all_stopped).
  destruct (C1_every_discovered_identifier_gets_its_request
              Scenario.aws (Scenario.config "start" "us-east-1,eu-west-1")
              Scenario.all_stopped Start (or_introl eq_refl))
    as [Hdir Hall].
  split; [exact Hdir|].
  destruct (Hall (firstn 3 (trace run)) "us-east-1" "rds:db" "env"
                 "scheduled-off" (Scenario.tagged "us-east-1" "rds:db")
                 (skipn 4 (trace run)) eq_refl)
    as (c & rest & Hc & Heq & Hret).
  exists c, rest. split; [exact Hc|]. split; [exact Heq|].
  exact (Hret "OK" eq_refl).
Defined.

(** An invocation cut short: the instance listing of us-east-1 returns
    db-1 and db-2, the start request for db-1 is refused with an access
    error, which escapes; db-2 was returned by discovery and receives no
    request at all. *)
Lemma C1_aborted_batch_leaves_identifiers_without_request :
  selects (ACTION (Scenario.config "start" "us-east-1,eu-west-1")) Start /\
  In (EvGetResources "us-east-1" "rds:db" "env" "scheduled-off"
        (inr (Scenario.tagged "us-east-1" "rds:db")))
     (trace (_execute Scenario.aws
               (Scenario.config "start" "us-east-1,eu-west-1")
               Scenario.db1_denied)) /\
  identifiers (Scenario.tagged "us-east-1" "rds:db") = ["db-1"; "db-2"] /\
  requests (trace (_execute Scenario.aws
                     (Scenario.config "start" "us-east-1,eu-west-1")
                     Scenario.db1_denied)) =
    [(start_db_instance, "us-east-1", "db-1")] /\
  count_occ string_dec
    (map snd (requests (trace (_execute Scenario.aws
                                 (Scenario.config "start" "us-east-1,eu-west-1")
                                 Scenario.db1_denied))))
    "db-2" = 0 /\
  result (_execute Scenario.aws
            (Scenario.config "start" "us-east-1,eu-west-1")
            Scenario.db1_denied) = inl (OtherError "AccessDenied") /\
  ~ (forall (P : platform) (self : settings) (w : World P),
       selects (ACTION self) Start ->
       forall t1 region rtype key value pages t2 id,
         trace (_execute P self w) =
           t1 ++ EvGetResources region rtype key value (inr pages) :: t2 ->
         In id (identifiers pages) ->
         exists op, In (op, region, id) (requests t2)).
Proof.
  split; [left; reflexivity|].
  split; [simpl; tauto|].
  split; [reflexivity|]. split; [reflexivity|]. split; [reflexivity|].
  split; [reflexivity|].
  intros H.
  pose (run := _execute Scenario.aws
                 (Scenario.config "start" "us-east-1,eu-west-1")
                 Scenario.db1_denied).
  destruct (H Scenario.aws (Scenario.config "start" "us-east-1,eu-west-1")
              Scenario.db1_denied (or_introl eq_refl)
              (firstn 3 (trace run)) "us-east-1" "rds:db" "env"
              "scheduled-off" (Scenario.tagged "us-east-1" "rds:db")
              (skipn 4 (trace run)) "db-2" eq_refl)
    as [op Hin].
  - simpl. tauto.
  - simpl in Hin. destruct Hin as [Hin|[]]. discriminate.
Qed.

Lemma uncaught_rds (op : rds_operation) (region id : string) (e : exc) :
  e <> state_fault op -> uncaught (EvRds op region id (Some e)) = Some e.
Proof. intros H. simpl. now rewrite exc_eqb_neq. Qed.

(** C3. A start/stop request that fails with anything but the state fault
    of its category ends the transition method and the whole invocation on
    the spot: the exception is the result of the method, and of
    [_execute]; nothing follows the failed request in the trace -- no
    request for a later identifier of the batch, no listing or request for
    a later region, no log line. *)
Theorem C3_other_failures_propagate :
  forall (P : platform),
    (forall (op : rds_operation) (region : string) (names : list string)
            (w : World P) t1 op' region' id e t2,
       trace (method_of P op region names w) =
         t1 ++ EvRds op' region' id (Some e) :: t2 ->
       e <> state_fault op' ->
       t2 = [] /\ result (method_of P op region names w) = inl e) /\
    (forall (self : settings) (w : World P) t1 op region id e t2,
       trace (_execute P self w) = t1 ++ EvRds op region id (Some e) :: t2 ->
       e <> state_fault op ->
       t2 = [] /\ result (_execute P self w) = inl e).
Proof.
  intros P. split.
  - intros op region names w t1 op' region' id e t2 Ht He.
    rewrite method_of_transition in *.
    pose proof (verdict_transition P op region names w) as Hf.
    rewrite Ht in Hf.
    destruct (verdict_uncaught t1 t2 _ e (uncaught_rds op' region' id e He))
      as [-> Hv].
    + destruct (result (transition P op region names w)); simpl in Hf;
        rewrite Hf; discriminate.
    + split; [reflexivity|]. rewrite Hv in Hf.
      destruct (result (transition P op region names w)); simpl in Hf;
        congruence.
  - intros self w t1 op region id e t2 Ht He.
    exact (execute_uncaught P self w t1 t2 _ e Ht (uncaught_rds op region id e He)).
Qed.

Lemma C3_witness :
  result (method_of Scenario.aws stop_db_instance "us-east-1"
            ["db-1"; "db-2"] Scenario.db1_denied)
    = inl (OtherError "AccessDenied") /\
  requests (trace (method_of Scenario.aws stop_db_instance "us-east-1"
                     ["db-1"; "db-2"] Scenario.db1_denied))
    = [(stop_db_instance, "us-east-1", "db-1")] /\
  result (_execute Scenario.aws
            (Scenario.config "stop" "us-east-1,eu-west-1")
            Scenario.db1_denied) = inl (OtherError "AccessDenied").
Proof.
  destruct (C3_other_failures_propagate Scenario.aws) as [Hbatch Hrun].
  split; [|split].
  - refine (proj2 (Hbatch stop_db_instance "us-east-1" ["db-1"; "db-2"]
                     Scenario.db1_denied
                     (removelast
                        (trace (method_of Scenario.aws stop_db_instance
                                  "us-east-1" ["db-1"; "db-2"]
                                  Scenario.db1_denied)))
                     stop_db_instance "us-east-1" "db-1"
                     (OtherError "AccessDenied") [] _ _));
      [reflexivity | discriminate].
  - reflexivity.
  - refine (proj2 (Hrun (Scenario.config "stop" "us-east-1,eu-west-1")
                     Scenario.db1_denied
                     (removelast
                        (trace (_execute Scenario.aws
                                  (Scenario.config "stop" "us-east-1,eu-west-1")
                                  Scenario.db1_denied)))
                     stop_db_instance "us-east-1" "db-1"
                     (OtherError "AccessDenied") [] _ _));
      [reflexivity | discriminate].
Defined.

Lemma expected_requests_nil (action region rtype : string)
      (pages : list resource_page) :
  identifiers pages = [] -> expected_requests action region rtype pages = [].
Proof.
  unfold expected_requests. intros ->.
  now destruct (direction_of action), (category_of rtype).
Qed.



(* ===================================================================== *)
(** * Monitor 3: the line after each request *)
(* ===================================================================== *)

(** After a request that succeeded the monitor awaits the success line of
    the operation for that identifier, after one that failed with the state
    fault of its category the warning line; any other next event, or the
    end of the trace, is a violation. *)

Inductive awaiting : Type :=
| Free
| Await (lvl : level) (fmt id : string)
| Violated.

Definition level_eqb (a b : level) : bool :=
  match a, b with
  | DEBUG, DEBUG | INFO, INFO | WARNING, WARNING => true
  | _, _ => false
  end.

Definition await_step (s : awaiting) (ev : event) : awaiting :=
  match s with
  | Free =>
      match ev with
      | EvRds op _ id None => Await INFO (done_line op) id
      | EvRds op _ id (Some e) =>
          if exc_eqb e (state_fault op)
          then Await WARNING (warning_line op) id
          else Free
      | _ => Free
      end
  | Await lvl fmt id =>
      match ev with
      | EvLog lvl' fmt' [id'] =>
          if level_eqb lvl lvl' && String.eqb fmt fmt' && String.eqb id id'
          then Free else Violated
      | _ => Violated
      end
  | Violated => Violated
  end.

Section Awaiting.

Variable P : platform.
Variable self : settings.

Lemma await_item (op : rds_operation) (region name : string)
      (a : option exc) :
  observe await_step (item_events op region name a) Free = Free.
Proof.
  unfold item_events.
  destruct a as [e|]; [destruct (exc_eqb e (state_fault op)) eqn:E|];
    cbn -[String.eqb]; rewrite ?E; cbn -[String.eqb];
    rewrite ?String.eqb_refl; now destruct op.
Qed.

Lemma await_transition (op : rds_operation) (region : string)
      (names : list string) :
  wp await_step (transition P op region names) (fun _ s => s = Free) Free.
Proof.
  apply wp_transition; [reflexivity|]. simpl.
  apply wp_for_each with (inv := fun _ s => s = Free).
  - reflexivity.
  - intros x rest s' ->. apply wp_item. intros a.
    rewrite await_item. now destruct (item_result op a).
  - now intros s' ->.
Qed.

Lemma await_enable_disable (c : category) (region : string)
      (names : list string) :
  wp await_step (enable_disable P self c region names)
     (fun _ s => s = Free) Free.
Proof.
  apply wp_enable_disable; [reflexivity|].
  intros d _ _. apply await_transition.
Qed.

Lemma await_execute_region (region : string) :
  wp await_step (execute_region P self region) (fun _ s => s = Free) Free.
Proof.
  unfold execute_region.
  apply wp_bind, wp_logger. simpl.
  apply wp_bind, wp_get_resource_identifiers_by_tag; simpl;
    try reflexivity.
  intros pages.
  apply wp_bind, wp_logger. simpl.
  apply wp_bind.
  eapply wp_conseq; [apply (await_enable_disable Instance)|].
  intros [e|[]] s ->; [reflexivity|].
  apply wp_bind, wp_logger. simpl.
  apply wp_bind, wp_get_resource_identifiers_by_tag; simpl;
    try reflexivity.
  intros pages'.
  apply wp_bind, wp_logger. simpl.
  apply (await_enable_disable Cluster).
Qed.

Lemma await_execute :
  wp await_step (_execute P self) (fun _ s => s = Free) Free.
Proof.
  unfold _execute.
  apply wp_bind, wp_logger. simpl.
  apply wp_bind.
  apply wp_for_each with (inv := fun _ s => s = Free).
  - reflexivity.
  - intros region rest s ->.
    eapply wp_conseq; [apply await_execute_region|].
    now intros [e|[]] s' ->.
  - intros s ->. apply wp_bind, wp_logger. simpl. now apply wp_ret.
Qed.

End Awaiting.

Lemma await_violated (t : list event) :
  observe await_step t Violated = Violated.
Proof. induction t as [|ev t IH]; [reflexivity | exact IH]. Qed.

Lemma level_eqb_eq (a b : level) : level_eqb a b = true -> a = b.
Proof. now destruct a, b. Qed.

(** In a trace the monitor ends [Free] on, every request is followed by
    its line. *)
Lemma await_free (t1 t2 : list event) op region id (a : option exc) :
  observe await_step (t1 ++ EvRds op region id a :: t2) Free = Free ->
  (a = None ->
   exists t3, t2 = EvLog INFO (done_line op) [id] :: t3) /\
  (a = Some (state_fault op) ->
   exists t3, t2 = EvLog WARNING (warning_line op) [id] :: t3).
Proof.
  rewrite observe_app.
  change (observe await_step (EvRds op region id a :: t2)
                  (observe await_step t1 Free))
    with (observe await_step t2
            (await_step (observe await_step t1 Free) (EvRds op region id a))).
  assert (Hnext : forall lvl fmt,
             observe await_step t2 (Await lvl fmt id) = Free ->
             exists t3, t2 = EvLog lvl fmt [id] :: t3).
  { intros lvl fmt H. destruct t2 as [|ev t3]; [discriminate|].
    change (observe await_step (ev :: t3) (Await lvl fmt id))
      with (observe await_step t3 (await_step (Await lvl fmt id) ev)) in H.
    destruct ev as [l f args|sv rg x|rg ty k v x|o rg i x];
      try (simpl in H; rewrite await_violated in H; discriminate).
    destruct args as [|i [|j args]];
      try (simpl in H; rewrite await_violated in H; discriminate).
    simpl in H.
    destruct (level_eqb lvl l && String.eqb fmt f && String.eqb id i) eqn:E;
      [|rewrite await_violated in H; discriminate].
    apply andb_prop in E. destruct E as [E Ei].
    apply andb_prop in E. destruct E as [El Ef].
    apply level_eqb_eq in El. apply String.eqb_eq in Ef, Ei. subst.
    now exists t3. }
  destruct (observe await_step t1 Free) as [|lvl fmt i|]; simpl await_step.
  - intros H. split; intros ->.
    + now apply Hnext.
    + rewrite exc_eqb_refl in H. now apply Hnext.
  - rewrite await_violated. discriminate.
  - rewrite await_violated. discriminate.
Qed.



(* ===================================================================== *)
(** * Invocations that apply no transition *)
(* ===================================================================== *)

(** What one region leaves in the trace when both listings succeed and no
    transition is applied. *)
Definition quiet_region (self : settings) (region : string)
           (found : list resource_page * list resource_page) : list event :=
  [EvLog INFO "> Searching RDS databases in region %s having tag %s=%s."
         [region; RESOURCE_TAG_KEY self; RESOURCE_TAG_VALUE self];
   EvClient "resourcegroupstaggingapi" region None;
   EvGetResources region "rds:db" (RESOURCE_TAG_KEY self)
                  (RESOURCE_TAG_VALUE self) (inr (fst found));
   EvLog INFO "> Found %s RDS databases in region %s having tag %s=%s."
         [Py.str_len (identifiers (fst found)); region;
          RESOURCE_TAG_KEY self; RESOURCE_TAG_VALUE self];
   EvLog INFO "> Searching RDS clusters in region %s having tag %s=%s."
         [region; RESOURCE_TAG_KEY self; RESOURCE_TAG_VALUE self];
   EvClient "resourcegroupstaggingapi" region None;
   EvGetResources region "rds:cluster" (RESOURCE_TAG_KEY self)
                  (RESOURCE_TAG_VALUE self) (inr (snd found));
   EvLog INFO "> Found %s RDS clusters in region %s having tag %s=%s."
         [Py.str_len (identifiers (snd found)); region;
          RESOURCE_TAG_KEY self; RESOURCE_TAG_VALUE self]].

(** The monitor that keeps the whole trace. *)
Definition record_step (s : list event) (ev : event) : list event :=
  s ++ [ev].

Lemma record_observe (t s : list event) :
  observe record_step t s = s ++ t.
Proof.
  revert s. induction t as [|ev t IH]; intros s.
  - now rewrite app_nil_r.
  - change (observe record_step (ev :: t) s)
      with (observe record_step t (s ++ [ev])).
    now rewrite IH, <- app_assoc.
Qed.

Lemma combine_app {A B} (l1 l2 : list A) (m1 m2 : list B) :
  List.length l1 = List.length m1 ->
  combine (l1 ++ l2) (m1 ++ m2) = combine l1 m1 ++ combine l2 m2.
Proof.
  revert m1. induction l1 as [|a l1 IH]; intros [|b m1] H; simpl in *;
    try discriminate; [reflexivity|].
  now rewrite IH by congruence.
Qed.

Section Quiet.

Variable P : platform.
Variable self : settings.
Hypothesis no_direction : direction_of (ACTION self) = None.

Lemma quiet_execute_region (region : string) (s : list event) :
  wp record_step (execute_region P self region)
     (fun r s' => forall x, r = inr x ->
                  exists found, s' = s ++ quiet_region self region found)
     s.
Proof.
  unfold execute_region.
  apply wp_bind, wp_logger.
  apply wp_bind, wp_get_resource_identifiers_by_tag;
    try (intros e x; discriminate).
  intros pages. rewrite append_pages_identifiers.
  apply wp_bind, wp_logger.
  apply wp_bind, (wp_enable_disable P self _ record_step Instance).
  2:{ intros d _ Hd. congruence. }
  intros _.
  apply wp_bind, wp_logger.
  apply wp_bind, wp_get_resource_identifiers_by_tag;
    try (intros e x; discriminate).
  intros pages'. rewrite append_pages_identifiers.
  apply wp_bind, wp_logger.
  apply (wp_enable_disable P self _ record_step Cluster).
  2:{ intros d _ Hd. congruence. }
  intros _ x _. exists (pages, pages').
  unfold record_step, quiet_region. simpl fst. simpl snd.
  repeat rewrite <- app_assoc. reflexivity.
Qed.

Lemma quiet_execute :
  wp record_step (_execute P self)
     (fun r s =>
        forall x, r = inr x ->
        exists found,
          List.length found = List.length (AWS_REGIONS self) /\
          s = EvLog INFO "Starting the operation." [] ::
              flat_map (fun rf => quiet_region self (fst rf) (snd rf))
                       (combine (AWS_REGIONS self) found) ++
              [EvLog INFO "Operation completed successfully." []])
     [].
Proof.
  unfold _execute.
  apply wp_bind, wp_logger.
  apply wp_bind.
  apply wp_for_each
    with (inv := fun rest s =>
                   exists done found,
                     AWS_REGIONS self = done ++ rest /\
                     List.length found = List.length done /\
                     s = EvLog INFO "Starting the operation." [] ::
                         flat_map (fun rf => quiet_region self (fst rf) (snd rf))
                                  (combine done found)).
  - now exists [], [].
  - intros region rest s (done & found & Hsplit & Hlen & ->).
    eapply wp_conseq; [apply quiet_execute_region|].
    intros [e|[]] s' H; [intros x; discriminate|].
    destruct (H tt eq_refl) as [f ->].
    exists (done ++ [region]), (found ++ [f]).
    split; [now rewrite <- app_assoc|].
    split; [rewrite !length_app; simpl; lia|].
    rewrite combine_app by (symmetry; exact Hlen).
    rewrite flat_map_app. cbn [combine flat_map fst snd].
    now rewrite app_nil_r.
  - intros s (done & found & Hsplit & Hlen & ->).
    rewrite app_nil_r in Hsplit. subst done.
    apply wp_bind, wp_logger. apply wp_ret.
    intros x _. exists found. split; [exact Hlen|]. reflexivity.
Qed.

End Quiet.



(* ===================================================================== *)
(** * The completion line *)
(* ===================================================================== *)

Section CompletionLast.

Variable P : platform.
Variable self : settings.

(** An invocation that returns has logged the completion line last. *)
Lemma completion_line_last :
  wp record_step (_execute P self)
     (fun r s =>
        forall x, r = inr x ->
        exists t, s = t ++ [EvLog INFO "Operation completed successfully." []])
     [].
Proof.
  unfold _execute.
  apply wp_bind, wp_logger.
  apply wp_bind.
  eapply wp_conseq with (post := fun _ _ => True); [intros w; exact I|].
  intros [e|[]] s _; [intros x; discriminate|].
  apply wp_bind, wp_logger. apply wp_ret.
  intros x _. now exists s.
Qed.

End CompletionLast.

(* ===================================================================== *)
(** * Monitor 5: which regions are listed *)
(* ===================================================================== *)

(** The listings of a trace, in order: region and resource type filter. *)
Fixpoint listings (t : list event) : list (string * string) :=
  match t with
  | [] => []
  | EvGetResources region rtype _ _ _ :: t' => (region, rtype) :: listings t'
  | _ :: t' => listings t'
  end.

(** The two listings [_execute] makes in a region. *)
Definition region_listings (region : string) : list (string * string) :=
  [(region, "rds:db"); (region, "rds:cluster")].

Definition listing_step (s : list (string * string)) (ev : event)
  : list (string * string) :=
  match ev with
  | EvGetResources region rtype _ _ _ => s ++ [(region, rtype)]
  | _ => s
  end.

Lemma listing_observe (t : list event) (s : list (string * string)) :
  observe listing_step t s = s ++ listings t.
Proof.
  revert s. induction t as [|ev t IH]; intros s.
  - now rewrite app_nil_r.
  - change (observe listing_step (ev :: t) s)
      with (observe listing_step t (listing_step s ev)).
    rewrite IH. destruct ev; simpl; try reflexivity.
    now rewrite <- app_assoc.
Qed.

Section Listings.

Variable P : platform.
Variable self : settings.

Lemma listing_transition (op : rds_operation) (region : string)
      (names : list string) (s : list (string * string)) :
  wp listing_step (transition P op region names) (fun _ s' => s' = s) s.
Proof.
  apply wp_transition; [reflexivity|]. simpl.
  apply wp_for_each with (inv := fun _ s' => s' = s).
  - reflexivity.
  - intros x rest s' ->. apply wp_item. intros a.
    rewrite listing_observe.
    assert (Hnone : listings (item_events op region x a) = []).
    { unfold item_events. simpl.
      destruct a as [e|]; [destruct (exc_eqb e (state_fault op))|];
        reflexivity. }
    simpl region_name. rewrite Hnone, app_nil_r.
    now destruct (item_result op a).
  - now intros s' ->.
Qed.

Lemma listing_enable_disable (c : category) (region : string)
      (names : list string) (s : list (string * string)) :
  wp listing_step (enable_disable P self c region names)
     (fun _ s' => s' = s) s.
Proof.
  apply wp_enable_disable; [reflexivity|].
  intros d _ _. apply listing_transition.
Qed.

Lemma listing_execute_region (region : string) (s : list (string * string)) :
  wp listing_step (execute_region P self region)
     (fun r s' =>
        exists suffix,
          s' ++ suffix = s ++ region_listings region /\
          (forall x, r = inr x -> suffix = []))
     s.
Proof.
  unfold execute_region, region_listings.
  apply wp_bind, wp_logger. simpl.
  apply wp_bind, wp_get_resource_identifiers_by_tag; simpl.
  { intros e. eexists. split; [reflexivity | discriminate]. }
  { intros e. exists [(region, "rds:cluster")].
    split; [now rewrite <- app_assoc | discriminate]. }
  intros pages.
  apply wp_bind, wp_logger. simpl.
  apply wp_bind.
  eapply wp_conseq; [apply (listing_enable_disable Instance)|].
  intros r s' ->.
  destruct r as [e|[]].
  { exists [(region, "rds:cluster")].
    split; [now rewrite <- app_assoc | discriminate]. }
  apply wp_bind, wp_logger. simpl.
  apply wp_bind, wp_get_resource_identifiers_by_tag; simpl.
  { intros e. exists [(region, "rds:cluster")].
    split; [now rewrite <- app_assoc | discriminate]. }
  { intros e. exists [].
    split; [now rewrite app_nil_r, <- app_assoc | discriminate]. }
  intros pages'.
  apply wp_bind, wp_logger. simpl.
  eapply wp_conseq; [apply (listing_enable_disable Cluster)|].
  intros r s' ->. exists [].
  split; [now rewrite app_nil_r, <- app_assoc | reflexivity].
Qed.

Lemma listing_execute :
  wp listing_step (_execute P self)
     (fun r s =>
        exists suffix,
          s ++ suffix = flat_map region_listings (AWS_REGIONS self) /\
          (forall x, r = inr x -> suffix = []))
     [].
Proof.
  unfold _execute.
  apply wp_bind, wp_logger. simpl.
  apply wp_bind.
  apply wp_for_each
    with (inv := fun rest s =>
                   exists done,
                     AWS_REGIONS self = done ++ rest /\
                     s = flat_map region_listings done).
  - now exists [].
  - intros region rest s (done & Hsplit & ->).
    eapply wp_conseq; [apply listing_execute_region|].
    intros r s' (suffix & Heq & Hret).
    destruct r as [e|[]].
    + exists (suffix ++ flat_map region_listings rest).
      split; [|discriminate].
      rewrite Hsplit, flat_map_app, app_assoc, Heq.
      cbn [flat_map]. now rewrite <- app_assoc.
    + rewrite (Hret tt eq_refl), app_nil_r in Heq. subst s'.
      exists (done ++ [region]).
      split; [now rewrite <- app_assoc|].
      rewrite flat_map_app. cbn [flat_map]. now rewrite app_nil_r.
  - intros s (done & Hsplit & ->).
    rewrite app_nil_r in Hsplit. subst done.
    apply wp_bind, wp_logger. simpl. apply wp_ret.
    exists []. split; [now rewrite app_nil_r | reflexivity].
Qed.

End Listings.

Module Deployment.

(** An environment whose region list has a leading and a trailing comma. *)
Definition environ (name : string) : option string :=
  if String.eqb name "PARAM_ACTION" then Some "stop"
  else if String.eqb name "PARAM_RESOURCE_TAG_KEY" then Some "env"
  else if String.eqb name "PARAM_RESOURCE_TAG_VALUE" then Some "scheduled-off"
  else if String.eqb name "PARAM_AWS_REGIONS" then Some ",us-east-1,"
  else None.

Definition self : settings := {|
  ACTION := "stop";
  RESOURCE_TAG_KEY := "env";
  RESOURCE_TAG_VALUE := "scheduled-off";
  AWS_REGIONS := [""; "us-east-1"; ""]
|}.

End Deployment.

(** The trace of a transition method: the client, the header line, then
    for each identifier in order its announcement, its request and the
    line for the answer, up to the first request whose exception
    escapes. *)
Lemma transition_trace_shape (P : platform) (op : rds_operation)
      (region : string) (names : list string) (w : World P) :
  (exists e,
      trace (method_of P op region names w) = [EvClient "rds" region (Some e)]) \/
  (exists answers,
      List.length answers <= List.length names /\
      trace (method_of P op region names w) =
        EvClient "rds" region None :: EvLog INFO (header_line op) [] ::
        flat_map (fun na => item_events op region (fst na) (snd na))
                 (combine names answers)).
Proof.
  rewrite method_of_transition.
  assert (Hloop :
    wp record_step (transition P op region names)
       (fun _ s =>
          (exists e, s = [EvClient "rds" region (Some e)]) \/
          (exists answers,
              List.length answers <= List.length names /\
              s = EvClient "rds" region None :: EvLog INFO (header_line op) [] ::
                  flat_map (fun na => item_events op region (fst na) (snd na))
                           (combine names answers)))
       []).
  { apply wp_transition; [intros e; left; now exists e|].
    apply wp_for_each
      with (inv := fun rest s =>
                     exists done answers,
                       names = done ++ rest /\
                       List.length answers = List.length done /\
                       s = EvClient "rds" region None ::
                           EvLog INFO (header_line op) [] ::
                           flat_map (fun na => item_events op region
                                                           (fst na) (snd na))
                                    (combine done answers)).
    - now exists [], [].
    - intros x rest s (done & answers & Hsplit & Hlen & ->).
      apply wp_item. intros a. rewrite record_observe. simpl region_name.
      assert (Hlen' : List.length (answers ++ [a]) =
                      List.length (done ++ [x])).
      { rewrite !length_app. simpl. lia. }
      assert (Heq :
        (EvClient "rds" region None :: EvLog INFO (header_line op) [] ::
         flat_map (fun na => item_events op region (fst na) (snd na))
                  (combine done answers)) ++ item_events op region x a =
        EvClient "rds" region None :: EvLog INFO (header_line op) [] ::
        flat_map (fun na => item_events op region (fst na) (snd na))
                 (combine (done ++ [x]) (answers ++ [a]))).
      { rewrite combine_app by (symmetry; exact Hlen).
        rewrite flat_map_app. cbn [combine flat_map fst snd].
        now rewrite app_nil_r. }
      destruct (item_result op a).
      + right. exists (answers ++ [a]). split.
        * rewrite Hlen', Hsplit, !length_app. simpl. lia.
        * rewrite Heq, Hsplit.
          replace (combine (done ++ x :: rest) (answers ++ [a]))
            with (combine (done ++ [x]) (answers ++ [a])); [reflexivity|].
          rewrite !combine_app by (symmetry; exact Hlen).
          simpl. now destruct rest.
      + exists (done ++ [x]), (answers ++ [a]).
        split; [now rewrite <- app_assoc|]. split; [exact Hlen'|exact Heq].
    - intros s (done & answers & Hsplit & Hlen & ->). right.
      rewrite app_nil_r in Hsplit. subst done.
      exists answers. split; [lia | reflexivity]. }
  specialize (Hloop w). simpl in Hloop. rewrite record_observe in Hloop.
  exact Hloop.
Qed.

(** The success line of each operation names the state it reaches. *)
Lemma done_line_names_target_state (op : rds_operation) :
  contains (target_state op) (done_line op) = true.
Proof. now destruct op. Qed.

(** C9. Started with a one-identifier batch, the two start methods log the
    line that precedes the request with severity DEBUG, not INFO; the
    success line that follows is INFO and names [AVAILABLE].  The two stop
    methods log both lines at INFO. *)
Theorem C9_start_methods_announce_at_debug :
  trace (_start_database_instances Scenario.aws "us-east-1" ["db-1"]
           Scenario.all_stopped) =
    [EvClient "rds" "us-east-1" None;
     EvLog INFO "> Starting RDS database instances." [];
     EvLog DEBUG ">> Starting RDS database instance %s." ["db-1"];
     EvRds start_db_instance "us-east-1" "db-1" None;
     EvLog INFO ">> RDS database instance %s => [AVAILABLE]." ["db-1"]] /\
  trace (_start_database_clusters Scenario.aws "eu-west-1" ["cluster-9"]
           Scenario.all_stopped) =
    [EvClient "rds" "eu-west-1" None;
     EvLog INFO "> Starting RDS database clusters." [];
     EvLog DEBUG ">> Starting RDS database cluster %s." ["cluster-9"];
     EvRds start_db_cluster "eu-west-1" "cluster-9" None;
     EvLog INFO ">> RDS database cluster %s => [AVAILABLE]." ["cluster-9"]] /\
  trace (_stop_database_instances Scenario.aws "us-east-1" ["db-1"]
           Scenario.all_running) =
    [EvClient "rds" "us-east-1" None;
     EvLog INFO "> Stopping RDS database instances." [];
     EvLog INFO ">> Stopping RDS database instance %s." ["db-1"];
     EvRds stop_db_instance "us-east-1" "db-1" None;
     EvLog INFO ">> RDS database instance %s => [STOPPED]." ["db-1"]] /\
  trace (_stop_database_clusters Scenario.aws "eu-west-1" ["cluster-9"]
           Scenario.all_running) =
    [EvClient "rds" "eu-west-1" None;
     EvLog INFO "> Stopping RDS database clusters." [];
     EvLog INFO ">> Stopping RDS database cluster %s." ["cluster-9"];
     EvRds stop_db_cluster "eu-west-1" "cluster-9" None;
     EvLog INFO ">> RDS database cluster %s => [STOPPED]." ["cluster-9"]].
Proof. repeat split. Qed.

(* ===================================================================== *)
(** * The class attributes *)
(* ===================================================================== *)

(** How often the character [c] occurs in [s]. *)
Fixpoint occurrences (c : ascii) (s : string) : nat :=
  match s with
  | EmptyString => 0
  | String d s' => (if Ascii.eqb d c then 1 else 0) + occurrences c s'
  end.

Section SplitMore.

Variable sep : ascii.

Lemma split_from_length (cur s : string) :
  List.length (Py.split_from sep cur s) = S (occurrences sep s).
Proof.
  revert cur. induction s as [|c s IH]; intros cur; simpl; [reflexivity|].
  destruct (Ascii.eqb c sep); simpl; now rewrite IH.
Qed.

(** A segment without separator, then a separator: the segment is cut
    there. *)
Lemma split_from_segment (cur x rest : string) :
  Py.occurs sep x = false ->
  Py.split_from sep cur (x ++ String sep rest) =
  (cur ++ x)%string :: Py.split_from sep "" rest.
Proof.
  revert cur. induction x as [|c x IH]; intros cur Hx; simpl in *.
  - now rewrite Ascii.eqb_refl, append_empty_r.
  - apply orb_false_elim in Hx. destruct Hx as [Hc Hx].
    now rewrite Hc, (IH _ Hx), append_snoc.
Qed.

Lemma split_join (l : list string) :
  l <> [] ->
  Forall (fun x => Py.occurs sep x = false) l ->
  Py.split sep (join sep l) = l.
Proof.
  unfold Py.split. induction l as [|x l IH]; intros Hne Hall; [congruence|].
  inversion Hall as [|? ? Hx Hl]; subst.
  destruct l as [|y l].
  - simpl. now rewrite split_from_no_sep.
  - change (join sep (x :: y :: l))
      with (x ++ String sep (join sep (y :: l)))%string.
    rewrite split_from_segment by exact Hx.
    rewrite IH by (congruence || assumption). reflexivity.
Qed.

End SplitMore.

(** X2. Setting PARAM_AWS_REGIONS to region names joined with ',' gives
    exactly those regions back, in order, provided there is at least one
    name and no name holds a ','. *)
Theorem regions_of_a_comma_joined_list :
  forall (environ : string -> option string) (self : settings)
         (names : list string),
    class_attributes environ = Some self ->
    environ "PARAM_AWS_REGIONS" = Some (join "," names) ->
    names <> [] ->
    Forall (fun name => Py.occurs "," name = false) names ->
    AWS_REGIONS self = names.
Proof.
  intros environ self names Hself Henv Hne Hall.
  unfold class_attributes in Hself. rewrite Henv in Hself.
  destruct (environ "PARAM_ACTION"); [|discriminate].
  destruct (environ "PARAM_RESOURCE_TAG_KEY"); [|discriminate].
  destruct (environ "PARAM_RESOURCE_TAG_VALUE"); [|discriminate].
  injection Hself as <-. simpl. now apply split_join.
Qed.

Lemma regions_of_a_comma_joined_list_witness :
  AWS_REGIONS Deployment.self = [""; "us-east-1"; ""].
Proof.
  apply (regions_of_a_comma_joined_list Deployment.environ Deployment.self
           [""; "us-east-1"; ""]).
  - reflexivity.
  - reflexivity.
  - discriminate.
  - repeat constructor.
Defined.

(** X3. The regions are one more than the commas of the value: no comma
    gives one region, and each further comma one more (empty segments
    counted). *)
Theorem regions_count_is_commas_plus_one :
  forall (environ : string -> option string) (self : settings) (value : string),
    class_attributes environ = Some self ->
    environ "PARAM_AWS_REGIONS" = Some value ->
    List.length (AWS_REGIONS self) = S (occurrences "," value).
Proof.
  intros environ self value Hself Henv.
  unfold class_attributes in Hself. rewrite Henv in Hself.
  destruct (environ "PARAM_ACTION"); [|discriminate].
  destruct (environ "PARAM_RESOURCE_TAG_KEY"); [|discriminate].
  destruct (environ "PARAM_RESOURCE_TAG_VALUE"); [|discriminate].
  injection Hself as <-. simpl. apply split_from_length.
Qed.

Lemma regions_count_is_commas_plus_one_witness :
  List.length (AWS_REGIONS Deployment.self) = 3.
Proof.
  exact (regions_count_is_commas_plus_one Deployment.environ Deployment.self
           ",us-east-1," eq_refl eq_refl).
Defined.

(* ===================================================================== *)
(** * Discovery at the edges *)
(* ===================================================================== *)

(** A tagging API that lists one name without ':' and one that ends in
    ':'; every other call succeeds. *)
Module Oddities.

Definition pages : list resource_page :=
  [ {| ResourceTagMappingList :=
         [ {| ResourceARN := "orphan" |};
           {| ResourceARN := "arn:aws:rds:us-east-1:123456789012:db:" |} ] |} ].

Definition api : platform := {|
  World := unit;
  sdk_client := fun _ _ w => (w, None);
  sdk_get_resources := fun _ _ _ _ w => (w, inr pages);
  sdk_rds := fun _ _ _ w => (w, None);
  Response := string;
  _build_response_ok := "OK"
|}.

End Oddities.

(** X4. Discovery skips and rejects nothing: a listed resource whose name
    holds no ':' is returned under its whole name, and one whose name ends
    in ':' under the empty identifier, each at its position. *)
Theorem discovery_keeps_names_without_or_ending_in_colon :
  forall (P : platform) (region rtype key value : string) (w : World P)
         (ids : list string),
    result (_get_resource_identifiers_by_tag P region rtype key value w)
      = inr ids ->
    exists pages,
      In (EvGetResources region rtype key value (inr pages))
         (trace (_get_resource_identifiers_by_tag P region rtype key value w))
      /\
      Forall2
        (fun (r : resource) (id : string) =>
           (Py.occurs ":" (ResourceARN r) = false -> id = ResourceARN r) /\
           (forall prefix,
              ResourceARN r = (prefix ++ ":")%string -> id = ""))
        (listed pages) ids.
Proof.
  intros P region rtype key value w ids H.
  destruct (get_resource_identifiers_by_tag_returns _ _ _ _ _ _ _ H)
    as (pages & Ht & ->).
  exists pages. split; [rewrite Ht; simpl; auto|].
  rewrite append_pages_identifiers, identifiers_listed.
  induction (listed pages) as [|r rs IH]; simpl; constructor; [|exact IH].
  unfold resource_identifier, Py.split. split.
  - intros Hno. now rewrite split_from_no_sep.
  - intros prefix ->. now apply last_split_from.
Qed.

Lemma discovery_keeps_names_without_or_ending_in_colon_witness :
  exists pages,
    In (EvGetResources "us-east-1" "rds:db" "env" "scheduled-off" (inr pages))
       (trace (_get_resource_identifiers_by_tag Oddities.api "us-east-1"
                 "rds:db" "env" "scheduled-off" tt)) /\
    Forall2
      (fun (r : resource) (id : string) =>
         (Py.occurs ":" (ResourceARN r) = false -> id = ResourceARN r) /\
         (forall prefix, ResourceARN r = (prefix ++ ":")%string -> id = ""))
      (listed pages) ["orphan"; ""].
Proof.
  apply (discovery_keeps_names_without_or_ending_in_colon Oddities.api
           "us-east-1" "rds:db" "env" "scheduled-off" tt).
  reflexivity.
Defined.

(* ===================================================================== *)
(** * The transition methods, called on their own *)
(* ===================================================================== *)

Definition request_step (s : list request) (ev : event) : list request :=
  match ev with
  | EvRds op region id _ => s ++ [(op, region, id)]
  | _ => s
  end.

Lemma request_observe (t : list event) (s : list request) :
  observe request_step t s = s ++ requests t.
Proof.
  revert s. induction t as [|ev t IH]; intros s.
  - now rewrite app_nil_r.
  - change (observe request_step (ev :: t) s)
      with (observe request_step t (request_step s ev)).
    rewrite IH. destruct ev; simpl; try reflexivity.
    now rewrite <- app_assoc.
Qed.

Lemma requests_item_events (op : rds_operation) (region name : string)
      (a : option exc) :
  requests (item_events op region name a) = [(op, region, name)].
Proof.
  unfold item_events. simpl.
  destruct a as [e|]; [destruct (exc_eqb e (state_fault op))|]; reflexivity.
Qed.

(** X5. Each of the four transition methods issues its own operation, in
    the region it was given, on the identifiers of its batch in order, one
    request each: on all of them when it returns, on the first ones of
    them when it raises. *)
Theorem method_requests_follow_the_batch :
  forall (P : platform) (op : rds_operation) (region : string)
         (names : list string) (w : World P),
    exists rest,
      map (fun id => (op, region, id)) names =
        requests (trace (method_of P op region names w)) ++ rest /\
      (result (method_of P op region names w) = inr tt -> rest = []).
Proof.
  intros P op region names w. rewrite method_of_transition.
  assert (Hwp :
    wp request_step (transition P op region names)
       (fun r s => exists rest,
                     map (fun id => (op, region, id)) names = s ++ rest /\
                     (r = inr tt -> rest = []))
       []).
  { apply wp_transition.
    - intros e. eexists. split; [reflexivity | discriminate].
    - simpl.
      apply wp_for_each
        with (inv := fun rest s =>
                       exists done, names = done ++ rest /\
                                    s = map (fun id => (op, region, id)) done).
      + now exists [].
      + intros x rest s (done & Hsplit & ->). apply wp_item. intros a.
        rewrite request_observe, requests_item_events. simpl region_name.
        destruct (item_result op a).
        * exists (map (fun id => (op, region, id)) rest).
          split; [|discriminate].
          rewrite Hsplit, map_app, <- app_assoc. reflexivity.
        * exists (done ++ [x]).
          split; [now rewrite <- app_assoc | now rewrite map_app].
      + intros s (done & Hsplit & ->). rewrite app_nil_r in Hsplit. subst.
        exists []. split; [now rewrite app_nil_r | reflexivity]. }
  specialize (Hwp w). simpl in Hwp. rewrite request_observe in Hwp.
  exact Hwp.
Qed.

Lemma verdict_aborted (t : list event) (e : exc) :
  observe verdict_step t Running = Aborted e ->
  exists t' ev, t = t' ++ [ev] /\ forallb benign t' = true /\
                uncaught ev = Some e.
Proof.
  induction t as [|ev t IH]; [discriminate|].
  change (observe verdict_step (ev :: t) Running)
    with (observe verdict_step t (verdict_step Running ev)).
  simpl. destruct (uncaught ev) as [e'|] eqn:U.
  - rewrite verdict_after_abort. destruct t; [|discriminate].
    intros [= ->]. now exists [], ev.
  - intros H. destruct (IH H) as (t' & ev' & -> & Hb & Hu).
    exists (ev :: t'), ev'. repeat split; [|exact Hu].
    simpl. unfold benign at 1. now rewrite U.
Qed.

(** Every event of a transition method is its client, its header line, or
    belongs to one of its identifiers. *)
Lemma method_events (P : platform) (op : rds_operation) (region : string)
      (names : list string) (w : World P) (ev : event) :
  In ev (trace (method_of P op region names w)) ->
  (exists a, ev = EvClient "rds" region a) \/
  ev = EvLog INFO (header_line op) [] \/
  exists name a, In ev (item_events op region name a).
Proof.
  intros Hin.
  destruct (transition_trace_shape P op region names w)
    as [[e He]|(answers & _ & Ht)].
  - rewrite He in Hin. destruct Hin as [<-|[]]. left. now exists (Some e).
  - rewrite Ht in Hin. destruct Hin as [<-|[<-|Hin]].
    + left. now exists None.
    + right. now left.
    + right. right. apply in_flat_map in Hin.
      destruct Hin as ([name a] & _ & Hin). now exists name, a.
Qed.

(** X6. A transition method returns exactly when its client was
    constructed and every request succeeded or failed with the state fault
    of the method's category.  When it raises, the exception is that of the
    last thing it did: the client construction, or a request that failed
    with an exception other than that state fault. *)
Theorem method_returns_unless_an_exception_escapes :
  forall (P : platform) (op : rds_operation) (region : string)
         (names : list string) (w : World P),
    (result (method_of P op region names w) = inr tt <->
     forallb benign (trace (method_of P op region names w)) = true) /\
    (forall e,
       result (method_of P op region names w) = inl e ->
       exists t ev,
         trace (method_of P op region names w) = t ++ [ev] /\
         forallb benign t = true /\
         (ev = EvClient "rds" region (Some e) \/
          exists id, ev = EvRds op region id (Some e) /\ e <> state_fault op)).
Proof.
  intros P op region names w.
  pose proof (verdict_transition P op region names w) as Hf.
  rewrite <- method_of_transition in Hf.
  split.
  - rewrite <- verdict_running.
    destruct (result (method_of P op region names w)) as [e|[]]; simpl in Hf;
      rewrite Hf; split; (discriminate || reflexivity).
  - intros e He. rewrite He in Hf. simpl in Hf.
    destruct (verdict_aborted _ _ Hf) as (t & ev & Ht & Hb & Hu).
    exists t, ev. split; [exact Ht|]. split; [exact Hb|].
    assert (Hin : In ev (trace (method_of P op region names w))).
    { rewrite Ht. apply in_or_app. right. now left. }
    destruct (method_events P op region names w ev Hin)
      as [[a ->]|[->|(name & a & Hitem)]].
    + simpl in Hu. subst a. now left.
    + discriminate.
    + unfold item_events in Hitem. destruct Hitem as [<-|[<-|Hitem]].
      * discriminate.
      * right. exists name. destruct a as [e'|]; [|discriminate].
        simpl in Hu.
        destruct (exc_eqb e' (state_fault op)) eqn:E; [discriminate|].
        injection Hu as ->. split; [reflexivity|].
        intros ->. now rewrite exc_eqb_refl in E.
      * destruct a as [e'|]; [destruct (exc_eqb e' (state_fault op))|];
          simpl in Hitem; try destruct Hitem as [<-|[]]; try discriminate;
          contradiction.
Qed.

(** X7. An invocation returns -- and then with the success payload --
    exactly when none of its SDK calls let an exception escape.  When it
    raises, the exception is the one its last SDK call let escape, and
    nothing before that call did. *)
Theorem invocation_returns_unless_an_exception_escapes :
  forall (P : platform) (self : settings) (w : World P),
    (forall x, result (_execute P self w) = inr x ->
               x = _build_response_ok P /\
               forallb benign (trace (_execute P self w)) = true) /\
    (forallb benign (trace (_execute P self w)) = true ->
     result (_execute P self w) = inr (_build_response_ok P)) /\
    (forall e,
       result (_execute P self w) = inl e ->
       exists t ev,
         trace (_execute P self w) = t ++ [ev] /\
         forallb benign t = true /\
         uncaught ev = Some e).
Proof.
  intros P self w.
  destruct (verdict_execute P self w) as [Hf Hok].
  split; [|split].
  - intros x Hx. rewrite (Hok x Hx) in *. split; [reflexivity|].
    rewrite Hx in Hf. simpl in Hf. now apply verdict_running.
  - intros Hb. apply verdict_running in Hb. rewrite Hb in Hf.
    destruct (result (_execute P self w)) as [e|x]; simpl in Hf;
      [discriminate|]. now rewrite (Hok x eq_refl).
  - intros e He. rewrite He in Hf. simpl in Hf.
    exact (verdict_aborted _ _ Hf).
Qed.

(* ===================================================================== *)
(** * What an invocation never touches *)
(* ===================================================================== *)

(** An event stays within the configuration: clients are constructed for
    the tagging API or for RDS only, and everything remote is addressed to
    a configured region; a listing filters on one of the two resource
    types and on the configured tag key and value. *)
Definition within (self : settings) (ev : event) : Prop :=
  match ev with
  | EvLog _ _ _ => True
  | EvClient service region _ =>
      (service = "resourcegroupstaggingapi" \/ service = "rds") /\
      In region (AWS_REGIONS self)
  | EvGetResources region rtype key value _ =>
      In region (AWS_REGIONS self) /\
      (rtype = "rds:db" \/ rtype = "rds:cluster") /\
      key = RESOURCE_TAG_KEY self /\
      value = RESOURCE_TAG_VALUE self
  | EvRds _ region _ _ => In region (AWS_REGIONS self)
  end.

(** The monitor that checks every event against a predicate. *)
Definition all_step (good : event -> Prop) (s : Prop) (ev : event) : Prop :=
  s /\ good ev.

Lemma all_observe (good : event -> Prop) (t : list event) (s : Prop) :
  observe (all_step good) t s <-> s /\ Forall good t.
Proof.
  revert s. induction t as [|ev t IH]; intros s.
  - simpl. split; [intros H; split; [exact H | constructor] | now intros [H _]].
  - change (observe (all_step good) (ev :: t) s)
      with (observe (all_step good) t (all_step good s ev)).
    rewrite IH. unfold all_step. split.
    + intros [[Hs Hev] Ht]. split; [exact Hs | now constructor].
    + intros [Hs Hall]. inversion Hall; subst. now repeat split.
Qed.

Section Confinement.

Variable P : platform.
Variable self : settings.

Lemma within_transition (op : rds_operation) (region : string)
      (names : list string) (s : Prop) :
  In region (AWS_REGIONS self) -> s ->
  wp (all_step (within self)) (transition P op region names)
     (fun _ s' => s') s.
Proof.
  intros Hin Hs. apply wp_transition.
  - intros e. simpl. unfold all_step. simpl. tauto.
  - apply wp_for_each with (inv := fun _ (s' : Prop) => s').
    + unfold all_step. simpl. tauto.
    + intros x rest s' Hs'. apply wp_item. intros a.
      assert (Hobs : observe (all_step (within self))
                       (item_events op region x a) s').
      { apply all_observe. split; [exact Hs'|].
        unfold item_events.
        destruct a as [e|]; [destruct (exc_eqb e (state_fault op))|];
          repeat constructor; exact Hin. }
      simpl region_name. now destruct (item_result op a).
    + trivial.
Qed.

Lemma within_enable_disable (c : category) (region : string)
      (names : list string) (s : Prop) :
  In region (AWS_REGIONS self) -> s ->
  wp (all_step (within self)) (enable_disable P self c region names)
     (fun _ s' => s') s.
Proof.
  intros Hin Hs. apply wp_enable_disable; [trivial|].
  intros d _ _. now apply within_transition.
Qed.

Lemma within_execute_region (region : string) (s : Prop) :
  In region (AWS_REGIONS self) -> s ->
  wp (all_step (within self)) (execute_region P self region)
     (fun _ s' => s') s.
Proof.
  intros Hin Hs. unfold execute_region.
  apply wp_bind, wp_logger.
  apply wp_bind, wp_get_resource_identifiers_by_tag;
    try (intros e; unfold all_step; simpl; tauto).
  intros pages.
  apply wp_bind, wp_logger.
  apply wp_bind.
  eapply wp_conseq;
    [apply (within_enable_disable Instance region); [exact Hin|];
     unfold all_step; simpl; tauto|].
  intros [e|[]] s' Hs'; [exact Hs'|].
  apply wp_bind, wp_logger.
  apply wp_bind, wp_get_resource_identifiers_by_tag;
    try (intros e; unfold all_step; simpl; tauto).
  intros pages'.
  apply wp_bind, wp_logger.
  apply (within_enable_disable Cluster region); [exact Hin|].
  unfold all_step. simpl. tauto.
Qed.

Lemma within_execute :
  wp (all_step (within self)) (_execute P self) (fun _ s' => s') True.
Proof.
  unfold _execute.
  apply wp_bind, wp_logger.
  apply wp_bind.
  apply wp_for_each
    with (inv := fun rest (s : Prop) =>
                   s /\ (forall x, In x rest -> In x (AWS_REGIONS self))).
  - unfold all_step. simpl. tauto.
  - intros region rest s [Hs Hincl].
    eapply wp_conseq;
      [apply within_execute_region; [apply Hincl; now left | exact Hs]|].
    intros [e|[]] s' Hs'; [exact Hs'|].
    split; [exact Hs'|]. intros x Hx. apply Hincl. now right.
  - intros s [Hs _].
    apply wp_bind, wp_logger. apply wp_ret. unfold all_step. simpl. tauto.
Qed.

End Confinement.

(** X8. An invocation stays within its configuration: it constructs
    clients for the tagging API and for RDS only, addresses every client,
    listing and start/stop request to one of the configured regions, and
    every listing filters on 'rds:db' or 'rds:cluster' with the configured
    tag key and tag value. *)
Theorem invocation_stays_within_its_configuration :
  forall (P : platform) (self : settings) (w : World P),
    Forall (within self) (trace (_execute P self w)).
Proof.
  intros P self w.
  pose proof (within_execute P self w) as H. simpl in H.
  apply all_observe in H. exact (proj2 H).
Qed.

Lemma identifiers_no_colon (pages : list resource_page) (id : string) :
  In id (identifiers pages) -> Py.occurs ":" id = false.
Proof.
  rewrite identifiers_listed. intros H. apply in_map_iff in H.
  destruct H as (r & <- & _). apply resource_identifier_no_colon.
Qed.

(** X9. No identifier sent to RDS holds a ':': each one is what discovery
    cut off a resource name after its last ':'. *)
Theorem requested_identifiers_hold_no_colon :
  forall (P : platform) (self : settings) (w : World P)
         (op : rds_operation) (region id : string),
    In (op, region, id) (requests (trace (_execute P self w))) ->
    Py.occurs ":" id = false.
Proof.
  intros P self w op region id Hin.
  destruct (execute_drained P self w) as (owed & Hacc & _).
  assert (Hall : Forall (fun q : request => Py.occurs ":" (snd q) = false)
                        (requests (trace (_execute P self w)))).
  { apply (accept_requests self) with (owed := []) (left := owed);
      [|constructor|exact Hacc].
    intros rg ty pages q Hq. unfold expected_requests in Hq.
    destruct (direction_of (ACTION self)); [|contradiction].
    destruct (category_of ty); [|contradiction].
    apply in_map_iff in Hq. destruct Hq as (i & <- & Hi).
    now apply (identifiers_no_colon pages). }
  rewrite Forall_forall in Hall. exact (Hall _ Hin).
Qed.

Lemma requested_identifiers_hold_no_colon_witness :
  Py.occurs ":" "db-2" = false.
Proof.
  apply (requested_identifiers_hold_no_colon Scenario.aws
           (Scenario.config "stop" "us-east-1,eu-west-1")
           Scenario.all_running stop_db_instance "us-east-1" "db-2").
  simpl. tauto.
Defined.

(* ===================================================================== *)
(** * When an RDS client is constructed *)
(* ===================================================================== *)

(** The regions of the RDS client constructions of a trace, failed ones
    included, in order. *)
Fixpoint rds_clients (t : list event) : list string :=
  match t with
  | [] => []
  | EvClient service region _ :: t' =>
      if String.eqb service "rds" then region :: rds_clients t'
      else rds_clients t'
  | _ :: t' => rds_clients t'
  end.

(** The regions of the listings of a trace that returned at least one
    identifier, in order. *)
Fixpoint productive_listings (t : list event) : list string :=
  match t with
  | [] => []
  | EvGetResources region _ _ _ (inr pages) :: t' =>
      match identifiers pages with
      | [] => productive_listings t'
      | _ :: _ => region :: productive_listings t'
      end
  | _ :: t' => productive_listings t'
  end.

Definition client_step (s : list string * list string) (ev : event)
  : list string * list string :=
  (fst s ++ rds_clients [ev], snd s ++ productive_listings [ev]).

Lemma rds_clients_cons (ev : event) (t : list event) :
  rds_clients (ev :: t) = rds_clients [ev] ++ rds_clients t.
Proof.
  destruct ev as [l f a|sv rg a|rg ty k v a|op rg id a]; simpl;
    try reflexivity.
  now destruct (String.eqb sv "rds").
Qed.

Lemma productive_listings_cons (ev : event) (t : list event) :
  productive_listings (ev :: t) =
  productive_listings [ev] ++ productive_listings t.
Proof.
  destruct ev as [l f a|sv rg a|rg ty k v a|op rg id a]; simpl;
    try reflexivity.
  destruct a as [e|pages]; [reflexivity|].
  now destruct (identifiers pages).
Qed.

Lemma client_observe (t : list event) (s : list string * list string) :
  observe client_step t s =
  (fst s ++ rds_clients t, snd s ++ productive_listings t).
Proof.
  revert s. induction t as [|ev t IH]; intros [cl pr].
  - simpl. now rewrite !app_nil_r.
  - change (observe client_step (ev :: t) (cl, pr))
      with (observe client_step t (client_step (cl, pr) ev)).
    rewrite IH. unfold client_step. cbn [fst snd].
    rewrite (rds_clients_cons ev t), (productive_listings_cons ev t).
    now rewrite <- !app_assoc.
Qed.

Lemma client_step_quiet (s : list string * list string) (ev : event) :
  rds_clients [ev] = [] -> productive_listings [ev] = [] ->
  client_step s ev = s.
Proof.
  intros H1 H2. unfold client_step. rewrite H1, H2, !app_nil_r.
  now destruct s.
Qed.

Section Clients.

Variable P : platform.
Variable self : settings.

(** Between regions: with a direction, one RDS client per productive
    listing so far; without, no RDS client. *)
Definition clients_match (s : list string * list string) : Prop :=
  (direction_of (ACTION self) <> None -> fst s = snd s) /\
  (direction_of (ACTION self) = None -> fst s = []).

Lemma client_transition (op : rds_operation) (region : string)
      (names : list string) (cl pr : list string) :
  wp client_step (transition P op region names)
     (fun _ s => s = (cl ++ [region], pr)) (cl, pr).
Proof.
  apply wp_transition.
  - intros e. unfold client_step. simpl. now rewrite app_nil_r.
  - replace (client_step (client_step (cl, pr) (EvClient "rds" region None))
                         (EvLog INFO (header_line op) []))
      with (cl ++ [region], pr)
      by (unfold client_step; simpl; now rewrite !app_nil_r).
    apply wp_for_each with (inv := fun _ s => s = (cl ++ [region], pr)).
    + reflexivity.
    + intros x rest s ->. apply wp_item. intros a.
      rewrite client_observe. cbn [fst snd].
      assert (H1 : rds_clients (item_events op region x a) = []).
      { unfold item_events.
        destruct a as [e|]; [destruct (exc_eqb e (state_fault op))|];
          reflexivity. }
      assert (H2 : productive_listings (item_events op region x a) = []).
      { unfold item_events.
        destruct a as [e|]; [destruct (exc_eqb e (state_fault op))|];
          reflexivity. }
      simpl region_name. rewrite H1, H2, !app_nil_r.
      now destruct (item_result op a).
    + now intros s ->.
Qed.

(** One category of one region: the listing has been answered, the count
    line logged; then the guarded transition. *)
Lemma client_enable_disable (c : category) (region rtype key value : string)
      (pages : list resource_page) (s : list string * list string) :
  clients_match s ->
  wp client_step (enable_disable P self c region (identifiers pages))
     (fun _ s' => clients_match s')
     (client_step s (EvGetResources region rtype key value (inr pages))).
Proof.
  intros [Hdir Hnone]. destruct s as [cl pr]. cbn [fst snd] in *.
  unfold client_step. cbn [fst snd rds_clients productive_listings].
  rewrite app_nil_r.
  apply wp_enable_disable.
  - intros [Hnil|Hno].
    + rewrite Hnil. rewrite app_nil_r. now split.
    + split; cbn [fst snd]; [congruence | exact Hnone].
  - intros d Hne Hd.
    destruct (identifiers pages) as [|i ids] eqn:E; [congruence|].
    rewrite <- E.
    eapply wp_conseq; [apply client_transition|].
    intros r s' ->. split; cbn [fst snd].
    + intros _. now rewrite Hdir by congruence.
    + congruence.
Qed.

Lemma client_execute_region (region : string) (s : list string * list string) :
  clients_match s ->
  wp client_step (execute_region P self region)
     (fun _ s' => clients_match s') s.
Proof.
  intros Hs. unfold execute_region.
  apply wp_bind, wp_logger. rewrite client_step_quiet by reflexivity.
  apply wp_bind, wp_get_resource_identifiers_by_tag.
  { intros e. now rewrite client_step_quiet by reflexivity. }
  { intros e. now rewrite !client_step_quiet by reflexivity. }
  intros pages. rewrite append_pages_identifiers.
  rewrite (client_step_quiet s (EvClient _ _ _)) by reflexivity.
  apply wp_bind, wp_logger.
  apply wp_bind.
  rewrite (client_step_quiet _ (EvLog _ _ _)) by reflexivity.
  eapply wp_conseq; [apply (client_enable_disable Instance); exact Hs|].
  intros [e|[]] s' Hs'; [exact Hs'|].
  apply wp_bind, wp_logger. rewrite client_step_quiet by reflexivity.
  apply wp_bind, wp_get_resource_identifiers_by_tag.
  { intros e. now rewrite client_step_quiet by reflexivity. }
  { intros e. now rewrite !client_step_quiet by reflexivity. }
  intros pages'. rewrite append_pages_identifiers.
  rewrite (client_step_quiet s' (EvClient _ _ _)) by reflexivity.
  apply wp_bind, wp_logger.
  rewrite (client_step_quiet _ (EvLog _ _ _)) by reflexivity.
  apply (client_enable_disable Cluster); exact Hs'.
Qed.

Lemma client_execute :
  wp client_step (_execute P self) (fun _ s => clients_match s) ([], []).
Proof.
  unfold _execute.
  apply wp_bind, wp_logger. rewrite client_step_quiet by reflexivity.
  apply wp_bind.
  apply wp_for_each with (inv := fun _ s => clients_match s).
  - now split.
  - intros region rest s Hs.
    eapply wp_conseq; [apply client_execute_region, Hs|].
    now intros [e|[]] s' Hs'.
  - intros s Hs.
    apply wp_bind, wp_logger. rewrite client_step_quiet by reflexivity.
    now apply wp_ret.
Qed.

End Clients.

(** X10. RDS clients are constructed only when there is something to
    transition: with an action that selects a direction, exactly one per
    listing that returned at least one identifier, for that listing's
    region and in the same order (also in an invocation cut short); with
    any other action, none at all. *)
Theorem rds_clients_only_for_productive_listings :
  forall (P : platform) (self : settings) (w : World P),
    (forall d, selects (ACTION self) d ->
               rds_clients (trace (_execute P self w)) =
               productive_listings (trace (_execute P self w))) /\
    (ACTION self <> "start" -> ACTION self <> "enable" ->
     ACTION self <> "stop" -> ACTION self <> "disable" ->
     rds_clients (trace (_execute P self w)) = []).
Proof.
  intros P self w.
  pose proof (client_execute P self w) as [Hdir Hnone].
  rewrite client_observe in Hdir, Hnone. cbn [fst snd app] in Hdir, Hnone.
  split.
  - intros d Hd. apply Hdir. rewrite (direction_of_selects _ _ Hd).
    discriminate.
  - intros H1 H2 H3 H4. apply Hnone. now apply direction_of_other.
Qed.

(* ===================================================================== *)
(** * Monitor 6: what comes right before a listing, a request, a warning *)
(* ===================================================================== *)

(** Whether [ev] may come right after [prev]: a listing only after the
    successful construction of a tagging client for its region; a start/stop
    request only after the line announcing it for its identifier; a line
    of severity WARNING only after a request on its identifier that failed
    with the state fault of its category.  Other events may come anywhere. *)
Definition follows (prev : option event) (ev : event) : bool :=
  match ev with
  | EvLog WARNING fmt [id] =>
      match prev with
      | Some (EvRds op _ id' (Some e)) =>
          exc_eqb e (state_fault op) && String.eqb fmt (warning_line op) &&
          String.eqb id id'
      | _ => false
      end
  | EvLog WARNING _ _ => false
  | EvLog _ _ _ => true
  | EvClient _ _ _ => true
  | EvGetResources region _ _ _ _ =>
      match prev with
      | Some (EvClient service region' None) =>
          String.eqb service "resourcegroupstaggingapi" &&
          String.eqb region region'
      | _ => false
      end
  | EvRds op _ id _ =>
      match prev with
      | Some (EvLog lvl fmt [id']) =>
          level_eqb lvl (announce_level op) &&
          String.eqb fmt (announce_line op) && String.eqb id id'
      | _ => false
      end
  end.

(** The monitor remembers the previous event; [None] is a violation. *)
Definition follow_step (s : option (option event)) (ev : event)
  : option (option event) :=
  match s with
  | Some prev => if follows prev ev then Some (Some ev) else None
  | None => None
  end.

Definition alive (s : option (option event)) : Prop := exists q, s = Some q.

Lemma follow_step_ok (prev : option event) (ev : event) :
  follows prev ev = true -> follow_step (Some prev) ev = Some (Some ev).
Proof. intros H. simpl. now rewrite H. Qed.

Lemma follow_item (prev : option event) (op : rds_operation)
      (region name : string) (a : option exc) :
  alive (observe follow_step (item_events op region name a) (Some prev)).
Proof.
  unfold item_events, alive.
  destruct op;
    (destruct a as [e|];
     [cbn [state_fault];
      match goal with
      | |- context [exc_eqb e ?f] => destruct (exc_eqb e f) eqn:E
      end|]);
    cbn -[String.eqb exc_eqb]; rewrite ?String.eqb_refl;
    cbn -[String.eqb exc_eqb]; rewrite ?E, ?String.eqb_refl;
    cbn -[String.eqb exc_eqb]; rewrite ?String.eqb_refl;
    eexists; reflexivity.
Qed.

Section Follows.

Variable P : platform.
Variable self : settings.

Lemma follow_transition (op : rds_operation) (region : string)
      (names : list string) (s : option (option event)) :
  alive s ->
  wp follow_step (transition P op region names) (fun _ s' => alive s') s.
Proof.
  intros [q ->]. apply wp_transition.
  - intros e. simpl. now eexists.
  - simpl. apply wp_for_each with (inv := fun _ s' => alive s').
    + now eexists.
    + intros x rest s' [q' ->]. apply wp_item. intros a.
      pose proof (follow_item q' op region x a) as H.
      simpl region_name. now destruct (item_result op a).
    + trivial.
Qed.

Lemma follow_enable_disable (c : category) (region : string)
      (names : list string) (s : option (option event)) :
  alive s ->
  wp follow_step (enable_disable P self c region names)
     (fun _ s' => alive s') s.
Proof.
  intros Hs. apply wp_enable_disable; [trivial|].
  intros d _ _. now apply follow_transition.
Qed.

Lemma follow_get_resource_identifiers_by_tag
      (region rtype key value : string) (s : option (option event)) :
  alive s ->
  wp follow_step (_get_resource_identifiers_by_tag P region rtype key value)
     (fun _ s' => alive s') s.
Proof.
  intros [q ->]. apply wp_get_resource_identifiers_by_tag.
  - intros e. simpl. now eexists.
  - intros e. cbn -[String.eqb]. rewrite !String.eqb_refl. simpl.
    now eexists.
  - intros pages. cbn -[String.eqb]. rewrite !String.eqb_refl. simpl.
    now eexists.
Qed.

Lemma follow_execute_region (region : string) (s : option (option event)) :
  alive s ->
  wp follow_step (execute_region P self region) (fun _ s' => alive s') s.
Proof.
  intros [q ->]. unfold execute_region.
  apply wp_bind, wp_logger. simpl.
  apply wp_bind.
  eapply wp_conseq;
    [apply follow_get_resource_identifiers_by_tag; now eexists|].
  intros [e|names] s' Hs'; [exact Hs'|]. destruct Hs' as [q' ->].
  apply wp_bind, wp_logger. simpl.
  apply wp_bind.
  eapply wp_conseq; [apply (follow_enable_disable Instance); now eexists|].
  intros [e|[]] s'' Hs''; [exact Hs''|]. destruct Hs'' as [q'' ->].
  apply wp_bind, wp_logger. simpl.
  apply wp_bind.
  eapply wp_conseq;
    [apply follow_get_resource_identifiers_by_tag; now eexists|].
  intros [e|names'] s3 Hs3; [exact Hs3|]. destruct Hs3 as [q3 ->].
  apply wp_bind, wp_logger. simpl.
  apply (follow_enable_disable Cluster). now eexists.
Qed.

Lemma follow_execute :
  wp follow_step (_execute P self) (fun _ s' => alive s') (Some None).
Proof.
  unfold _execute.
  apply wp_bind, wp_logger. simpl.
  apply wp_bind.
  apply wp_for_each with (inv := fun _ s => alive s).
  - now eexists.
  - intros region rest s Hs.
    eapply wp_conseq; [apply follow_execute_region, Hs|].
    now intros [e|[]] s' Hs'.
  - intros s [q ->].
    apply wp_bind, wp_logger. simpl. apply wp_ret. now eexists.
Qed.

End Follows.

Lemma follow_dead (t : list event) : observe follow_step t None = None.
Proof. induction t as [|ev t IH]; [reflexivity | exact IH]. Qed.

(** In a trace the monitor survives, every event follows the one before. *)
Lemma follow_alive (t1 t2 : list event) (ev : event) :
  alive (observe follow_step (t1 ++ ev :: t2) (Some None)) ->
  (t1 = [] /\ follows None ev = true) \/
  (exists t0 prev, t1 = t0 ++ [prev] /\ follows (Some prev) ev = true).
Proof.
  intros [q Hq]. rewrite observe_app in Hq.
  change (observe follow_step (ev :: t2) (observe follow_step t1 (Some None)))
    with (observe follow_step t2
            (follow_step (observe follow_step t1 (Some None)) ev)) in Hq.
  assert (Hlast : forall s,
             observe follow_step t1 (Some None) = Some s ->
             (t1 = [] /\ s = None) \/
             (exists t0 prev, t1 = t0 ++ [prev] /\ s = Some prev)).
  { clear. induction t1 as [|x t1 IH] using rev_ind; intros s H.
    - left. split; [reflexivity|]. now injection H as <-.
    - right. rewrite observe_app in H.
      change (observe follow_step [x] (observe follow_step t1 (Some None)))
        with (follow_step (observe follow_step t1 (Some None)) x) in H.
      destruct (observe follow_step t1 (Some None)) as [p|]; [|discriminate].
      simpl in H. destruct (follows p x); [|discriminate].
      injection H as <-. now exists t1, x. }
  destruct (observe follow_step t1 (Some None)) as [s|];
    [|simpl in Hq; now rewrite follow_dead in Hq].
  simpl in Hq. destruct (follows s ev) eqn:E;
    [|now rewrite follow_dead in Hq].
  destruct (Hlast s eq_refl) as [[-> ->]|(t0 & prev & -> & ->)].
  - now left.
  - right. now exists t0, prev.
Qed.

Lemma execute_follows (P : platform) (self : settings) (w : World P)
      (t1 t2 : list event) (ev : event) :
  trace (_execute P self w) = t1 ++ ev :: t2 ->
  (t1 = [] /\ follows None ev = true) \/
  (exists t0 prev, t1 = t0 ++ [prev] /\ follows (Some prev) ev = true).
Proof.
  intros Ht. apply follow_alive with (t2 := t2). rewrite <- Ht.
  exact (follow_execute P self w).
Qed.

(** X11. An invocation never warns without cause: every line of severity
    WARNING in its trace comes right after a start/stop request that failed
    with the state fault of its category, and is that operation's warning
    line for the identifier of that request. *)
Theorem warnings_only_after_a_caught_state_fault :
  forall (P : platform) (self : settings) (w : World P)
         (t1 t2 : list event) (fmt : string) (args : list string),
    trace (_execute P self w) = t1 ++ EvLog WARNING fmt args :: t2 ->
    exists t0 op region id,
      t1 = t0 ++ [EvRds op region id (Some (state_fault op))] /\
      fmt = warning_line op /\
      args = [id].
Proof.
  intros P self w t1 t2 fmt args Ht.
  destruct (execute_follows P self w _ _ _ Ht)
    as [[_ H]|(t0 & prev & -> & H)].
  - destruct args as [|i [|j args]]; discriminate.
  - destruct args as [|i [|j args]]; try discriminate.
    simpl in H.
    destruct prev as [l f a|sv rg a|rg ty k v a|op rg id a];
      try discriminate.
    destruct a as [e|]; [|discriminate].
    apply andb_prop in H. destruct H as [H Hi].
    apply andb_prop in H. destruct H as [He Hf].
    apply exc_eqb_eq in He. apply String.eqb_eq in Hf, Hi. subst.
    now exists t0, op, rg, id.
Qed.

Lemma warnings_only_after_a_caught_state_fault_witness :
  exists t0 op region id,
    firstn 9 (trace (_execute Scenario.aws
                       (Scenario.config "stop" "us-east-1,eu-west-1")
                       Scenario.db1_stopped)) =
      t0 ++ [EvRds op region id (Some (state_fault op))] /\
    ">> Unable to stop RDS database instance %s due to invalid state." =
      warning_line op /\
    ["db-1"] = [id].
Proof.
  apply (warnings_only_after_a_caught_state_fault Scenario.aws
           (Scenario.config "stop" "us-east-1,eu-west-1")
           Scenario.db1_stopped
           (firstn 9 (trace (_execute Scenario.aws
                               (Scenario.config "stop" "us-east-1,eu-west-1")
                               Scenario.db1_stopped)))
           (skipn 10 (trace (_execute Scenario.aws
                               (Scenario.config "stop" "us-east-1,eu-west-1")
                               Scenario.db1_stopped)))).
  reflexivity.
Defined.

(** X12. Every listing is made on a tagging client constructed just for it:
    the event right before a listing is the successful construction of a
    'resourcegroupstaggingapi' client for the listing's region (so a
    failed construction is never followed by its listing, and no client is
    kept from one listing to the next). *)
Theorem each_listing_has_its_own_tagging_client :
  forall (P : platform) (self : settings) (w : World P)
         (t1 t2 : list event) (region rtype key value : string)
         (a : exc + list resource_page),
    trace (_execute P self w) =
      t1 ++ EvGetResources region rtype key value a :: t2 ->
    exists t0,
      t1 = t0 ++ [EvClient "resourcegroupstaggingapi" region None].
Proof.
  intros P self w t1 t2 region rtype key value a Ht.
  destruct (execute_follows P self w _ _ _ Ht)
    as [[_ H]|(t0 & prev & -> & H)]; [discriminate|].
  simpl in H.
  destruct prev as [l f x|sv rg x|rg ty k v x|op rg id x]; try discriminate.
  destruct x as [e|]; [discriminate|].
  apply andb_prop in H. destruct H as [Hs Hr].
  apply String.eqb_eq in Hs, Hr. subst. now exists t0.
Qed.

Lemma each_listing_has_its_own_tagging_client_witness :
  exists t0,
    firstn 3 (trace (_execute Scenario.aws
                       (Scenario.config "stop" "us-east-1,eu-west-1")
                       Scenario.all_running)) =
    t0 ++ [EvClient "resourcegroupstaggingapi" "us-east-1" None].
Proof.
  apply (each_listing_has_its_own_tagging_client Scenario.aws
           (Scenario.config "stop" "us-east-1,eu-west-1")
           Scenario.all_running
           (firstn 3 (trace (_execute Scenario.aws
                               (Scenario.config "stop" "us-east-1,eu-west-1")
                               Scenario.all_running)))
           (skipn 4 (trace (_execute Scenario.aws
                              (Scenario.config "stop" "us-east-1,eu-west-1")
                              Scenario.all_running)))
           "us-east-1" "rds:db" "env" "scheduled-off"
           (inr (Scenario.tagged "us-east-1" "rds:db"))).
  reflexivity.
Defined.

(** X13. Every start/stop request is announced: the event right before it
    is the operation's announcement line for the identifier of the
    request, which the two stop methods log at INFO and the two start
    methods at DEBUG. *)
Theorem each_request_is_announced :
  forall (P : platform) (self : settings) (w : World P)
         (t1 t2 : list event) (op : rds_operation) (region id : string)
         (a : option exc),
    trace (_execute P self w) = t1 ++ EvRds op region id a :: t2 ->
    exists t0,
      t1 = t0 ++ [EvLog (announce_level op) (announce_line op) [id]] /\
      announce_level op = (if is_start op then DEBUG else INFO).
Proof.
  intros P self w t1 t2 op region id a Ht.
  destruct (execute_follows P self w _ _ _ Ht)
    as [[_ H]|(t0 & prev & -> & H)]; [discriminate|].
  simpl in H.
  destruct prev as [l f x|sv rg x|rg ty k v x|o rg i x]; try discriminate.
  destruct x as [|i [|j x]]; try discriminate.
  apply andb_prop in H. destruct H as [H Hi].
  apply andb_prop in H. destruct H as [Hl Hf].
  apply level_eqb_eq in Hl. apply String.eqb_eq in Hf, Hi. subst.
  exists t0. split; [reflexivity | now destruct op].
Qed.

Lemma each_request_is_announced_witness :
  exists t0,
    firstn 8 (trace (_execute Scenario.aws
                       (Scenario.config "start" "us-east-1,eu-west-1")
                       Scenario.all_stopped)) =
      t0 ++ [EvLog (announce_level start_db_instance)
                   (announce_line start_db_instance) ["db-1"]] /\
    announce_level start_db_instance = DEBUG.
Proof.
  apply (each_request_is_announced Scenario.aws
           (Scenario.config "start" "us-east-1,eu-west-1")
           Scenario.all_stopped
           (firstn 8 (trace (_execute Scenario.aws
                               (Scenario.config "start" "us-east-1,eu-west-1")
                               Scenario.all_stopped)))
           (skipn 9 (trace (_execute Scenario.aws
                              (Scenario.config "start" "us-east-1,eu-west-1")
                              Scenario.all_stopped)))
           start_db_instance "us-east-1" "db-1" None).
  reflexivity.
Defined.

(* ===================================================================== *)
(** * Monitor 7: the count line after each listing *)
(* ===================================================================== *)

Definition found_line (c : category) : string :=
  match c with
  | Instance => "> Found %s RDS databases in region %s having tag %s=%s."
  | Cluster => "> Found %s RDS clusters in region %s having tag %s=%s."
  end.

(** After an answered listing the monitor awaits the count line of the
    listed category, carrying the number of listed resources, the region
    and the tag of the listing. *)
Inductive counting : Type :=
| Idle
| Counting (fmt count region key value : string)
| Miscounted.

Definition count_step (s : counting) (ev : event) : counting :=
  match s with
  | Idle =>
      match ev with
      | EvGetResources region rtype key value (inr pages) =>
          match category_of rtype with
          | Some c =>
              Counting (found_line c) (Py.str_len (listed pages))
                       region key value
          | None => Miscounted
          end
      | _ => Idle
      end
  | Counting fmt count region key value =>
      match ev with
      | EvLog INFO fmt' [count'; region'; key'; value'] =>
          if String.eqb fmt fmt' && String.eqb count count' &&
             String.eqb region region' && String.eqb key key' &&
             String.eqb value value'
          then Idle else Miscounted
      | _ => Miscounted
      end
  | Miscounted => Miscounted
  end.

Lemma str_len_identifiers (pages : list resource_page) :
  Py.str_len (identifiers pages) = Py.str_len (listed pages).
Proof.
  unfold Py.str_len. now rewrite identifiers_listed, length_map.
Qed.

Section Counting.

Variable P : platform.
Variable self : settings.

Lemma count_transition (op : rds_operation) (region : string)
      (names : list string) :
  wp count_step (transition P op region names) (fun _ s => s = Idle) Idle.
Proof.
  apply wp_transition; [reflexivity|]. simpl.
  apply wp_for_each with (inv := fun _ s => s = Idle).
  - reflexivity.
  - intros x rest s ->. apply wp_item. intros a.
    assert (H : observe count_step (item_events op region x a) Idle = Idle).
    { unfold item_events.
      destruct a as [e|]; [destruct (exc_eqb e (state_fault op))|];
        reflexivity. }
    simpl region_name. rewrite H. now destruct (item_result op a).
  - now intros s ->.
Qed.

Lemma count_enable_disable (c : category) (region : string)
      (names : list string) :
  wp count_step (enable_disable P self c region names)
     (fun _ s => s = Idle) Idle.
Proof.
  apply wp_enable_disable; [reflexivity|].
  intros d _ _. apply count_transition.
Qed.

Lemma count_listing_then_line (c : category) (region key value : string)
      (pages : list resource_page) :
  count_step
    (count_step
       (count_step Idle (EvClient "resourcegroupstaggingapi" region None))
       (EvGetResources region (resource_type c) key value (inr pages)))
    (EvLog INFO (found_line c)
           [Py.str_len (listed pages); region; key; value]) = Idle.
Proof.
  destruct c; simpl; rewrite !String.eqb_refl; reflexivity.
Qed.

Ltac count_line c :=
  match goal with
  | |- wp _ _ _ ?s =>
      replace s with Idle
        by (symmetry; exact (count_listing_then_line c _ _ _ _))
  end.

Lemma count_execute_region (region : string) :
  wp count_step (execute_region P self region) (fun _ s => s = Idle) Idle.
Proof.
  unfold execute_region.
  apply wp_bind, wp_logger. simpl.
  apply wp_bind, wp_get_resource_identifiers_by_tag; try reflexivity.
  intros pages. rewrite append_pages_identifiers, str_len_identifiers.
  apply wp_bind, wp_logger. count_line Instance.
  apply wp_bind.
  eapply wp_conseq; [apply (count_enable_disable Instance)|].
  intros [e|[]] s ->; [reflexivity|].
  apply wp_bind, wp_logger. simpl.
  apply wp_bind, wp_get_resource_identifiers_by_tag; try reflexivity.
  intros pages'. rewrite append_pages_identifiers, str_len_identifiers.
  apply wp_bind, wp_logger. count_line Cluster.
  apply (count_enable_disable Cluster).
Qed.

Lemma count_execute :
  wp count_step (_execute P self) (fun _ s => s = Idle) Idle.
Proof.
  unfold _execute.
  apply wp_bind, wp_logger. simpl.
  apply wp_bind.
  apply wp_for_each with (inv := fun _ s => s = Idle).
  - reflexivity.
  - intros region rest s ->.
    eapply wp_conseq; [apply count_execute_region|].
    now intros [e|[]] s' ->.
  - intros s ->. apply wp_bind, wp_logger. simpl. now apply wp_ret.
Qed.

End Counting.

Lemma count_stuck (t : list event) :
  observe count_step t Miscounted = Miscounted.
Proof. induction t as [|ev t IH]; [reflexivity | exact IH]. Qed.

(** X14. Every answered listing is reported: the event right after it is
    the count line of the listed category, at INFO, carrying the number of
    resources the listing returned over all its pages (in decimal, zero and
    duplicates included), the region and the tag key and value of the
    listing. *)
Theorem each_answered_listing_is_counted :
  forall (P : platform) (self : settings) (w : World P)
         (t1 t2 : list event) (region rtype key value : string)
         (pages : list resource_page),
    trace (_execute P self w) =
      t1 ++ EvGetResources region rtype key value (inr pages) :: t2 ->
    exists c t3,
      category_of rtype = Some c /\
      t2 = EvLog INFO (found_line c)
                 [NilZero.string_of_uint
                    (Nat.to_uint (List.length (listed pages)));
                  region; key; value] :: t3.
Proof.
  intros P self w t1 t2 region rtype key value pages Ht.
  pose proof (count_execute P self w) as H. simpl in H. rewrite Ht in H.
  rewrite observe_app in H.
  change (observe count_step
            (EvGetResources region rtype key value (inr pages) :: t2)
            (observe count_step t1 Idle))
    with (observe count_step t2
            (count_step (observe count_step t1 Idle)
               (EvGetResources region rtype key value (inr pages)))) in H.
  destruct (observe count_step t1 Idle);
    simpl count_step in H; try (rewrite count_stuck in H; discriminate).
  destruct (category_of rtype) as [c|];
    [|rewrite count_stuck in H; discriminate].
  exists c. destruct t2 as [|ev t3]; [discriminate|].
  change (observe count_step (ev :: t3)
            (Counting (found_line c) (Py.str_len (listed pages))
                      region key value))
    with (observe count_step t3
            (count_step (Counting (found_line c) (Py.str_len (listed pages))
                                  region key value) ev)) in H.
  destruct ev as [l f args|sv rg x|rg ty k v x|o rg i x];
    try (simpl in H; rewrite count_stuck in H; discriminate).
  destruct l; try (simpl in H; rewrite count_stuck in H; discriminate).
  destruct args as [|a1 [|a2 [|a3 [|a4 [|a5 args]]]]];
    try (simpl in H; rewrite count_stuck in H; discriminate).
  cbn -[String.eqb] in H.
  destruct (String.eqb (found_line c) f &&
            String.eqb (Py.str_len (listed pages)) a1 &&
            String.eqb region a2 && String.eqb key a3 &&
            String.eqb value a4) eqn:E;
    [|rewrite count_stuck in H; discriminate].
  repeat (apply andb_prop in E; destruct E as [E ?]).
  repeat match goal with
         | Heq : String.eqb _ _ = true |- _ => apply String.eqb_eq in Heq
         end.
  subst. exists t3. split; reflexivity.
Qed.

Lemma each_answered_listing_is_counted_witness :
  exists c t3,
    category_of "rds:db" = Some c /\
    skipn 4 (trace (_execute Scenario.aws
                      (Scenario.config "stop" "us-east-1,eu-west-1")
                      Scenario.all_running)) =
    EvLog INFO (found_line c)
          [NilZero.string_of_uint
             (Nat.to_uint
                (List.length (listed (Scenario.tagged "us-east-1" "rds:db"))));
           "us-east-1"; "env"; "scheduled-off"] :: t3.
Proof.
  apply (each_answered_listing_is_counted Scenario.aws
           (Scenario.config "stop" "us-east-1,eu-west-1")
           Scenario.all_running
           (firstn 3 (trace (_execute Scenario.aws
                               (Scenario.config "stop" "us-east-1,eu-west-1")
                               Scenario.all_running)))).
  reflexivity.
Defined.

(* ===================================================================== *)
(** * Monitor 8: the completion line *)
(* ===================================================================== *)

Definition is_completion_line (ev : event) : bool :=
  match ev with
  | EvLog _ fmt _ => String.eqb fmt "Operation completed successfully."
  | _ => false
  end.

Definition completion_step (seen : bool) (ev : event) : bool :=
  seen || is_completion_line ev.

Lemma completion_observe (t : list event) (seen : bool) :
  observe completion_step t seen = seen || existsb is_completion_line t.
Proof.
  revert seen. induction t as [|ev t IH]; intros seen.
  - simpl. now rewrite orb_false_r.
  - change (observe completion_step (ev :: t) seen)
      with (observe completion_step t (completion_step seen ev)).
    rewrite IH. unfold completion_step. simpl. now rewrite orb_assoc.
Qed.

Section Completion.

Variable P : platform.
Variable self : settings.

Lemma completion_transition (op : rds_operation) (region : string)
      (names : list string) :
  wp completion_step (transition P op region names)
     (fun _ seen => seen = false) false.
Proof.
  apply wp_transition; [reflexivity|].
  replace (completion_step (completion_step false (EvClient "rds" region None))
                           (EvLog INFO (header_line op) []))
    with false by now destruct op.
  apply wp_for_each with (inv := fun _ seen => seen = false).
  - reflexivity.
  - intros x rest seen ->. apply wp_item. intros a.
    assert (H : observe completion_step (item_events op region x a) false
                = false).
    { unfold item_events.
      destruct a as [e|]; [destruct (exc_eqb e (state_fault op))|];
        now destruct op. }
    simpl region_name. rewrite H. now destruct (item_result op a).
  - now intros seen ->.
Qed.

Lemma completion_enable_disable (c : category) (region : string)
      (names : list string) :
  wp completion_step (enable_disable P self c region names)
     (fun _ seen => seen = false) false.
Proof.
  apply wp_enable_disable; [reflexivity|].
  intros d _ _. apply completion_transition.
Qed.

Lemma completion_execute_region (region : string) :
  wp completion_step (execute_region P self region)
     (fun _ seen => seen = false) false.
Proof.
  unfold execute_region.
  apply wp_bind, wp_logger.
  apply wp_bind, wp_get_resource_identifiers_by_tag; try reflexivity.
  intros pages.
  apply wp_bind, wp_logger.
  apply wp_bind.
  eapply wp_conseq; [apply (completion_enable_disable Instance)|].
  intros [e|[]] seen ->; [reflexivity|].
  apply wp_bind, wp_logger.
  apply wp_bind, wp_get_resource_identifiers_by_tag; try reflexivity.
  intros pages'.
  apply wp_bind, wp_logger.
  apply (completion_enable_disable Cluster).
Qed.

Lemma completion_execute :
  wp completion_step (_execute P self)
     (fun r seen => match r with inr _ => seen = true | inl _ => seen = false end)
     false.
Proof.
  unfold _execute.
  apply wp_bind, wp_logger.
  apply wp_bind.
  apply wp_for_each with (inv := fun _ seen => seen = false).
  - reflexivity.
  - intros region rest seen ->.
    eapply wp_conseq; [apply completion_execute_region|].
    now intros [e|[]] seen ->.
  - intros seen ->. apply wp_bind, wp_logger. now apply wp_ret.
Qed.

End Completion.

(** X15. The completion line is logged exactly by the invocations that
    return: an invocation that raises never logs 'Operation completed
    successfully.', at any severity; and every invocation, whatever
    happens next, first logs 'Starting the operation.'. *)
Theorem completion_line_iff_the_invocation_returns :
  forall (P : platform) (self : settings) (w : World P),
    (existsb is_completion_line (trace (_execute P self w)) = true <->
     exists x, result (_execute P self w) = inr x) /\
    exists t, trace (_execute P self w) =
              EvLog INFO "Starting the operation." [] :: t.
Proof.
  intros P self w. split.
  - pose proof (completion_execute P self w) as H. simpl in H.
    rewrite completion_observe in H. simpl in H.
    destruct (result (_execute P self w)) as [e|x]; rewrite H.
    + split; [discriminate | now intros [x Hx]].
    + split; [now exists x | reflexivity].
  - assert (Hwp :
      wp record_step (_execute P self)
         (fun _ s => exists t,
                       s = EvLog INFO "Starting the operation." [] :: t)
         []).
    { unfold _execute. apply wp_bind, wp_logger.
      intros w'. rewrite record_observe. now eexists. }
    specialize (Hwp w). simpl in Hwp. now rewrite record_observe in Hwp.
Qed.

(* ===================================================================== *)
(** * The action matters only through the list it is found in *)
(* ===================================================================== *)

Lemma mem_In (x : string) (l : list string) :
  Py.mem x l = true <-> In x l.
Proof.
  unfold Py.mem. rewrite existsb_exists. split.
  - intros (y & Hy & E). apply String.eqb_eq in E. now subst.
  - intros H. exists x. split; [exact H | apply String.eqb_refl].
Qed.

Lemma mem_same (x y : string) (l : list string) :
  (In x l <-> In y l) -> Py.mem x l = Py.mem y l.
Proof.
  intros H. rewrite <- !mem_In in H.
  destruct (Py.mem x l), (Py.mem y l); try reflexivity.
  - symmetry. now apply H.
  - now apply H.
Qed.

(** X16. Two configurations that differ only in the action run the very
    same invocation -- same trace, same remote state, same result -- as
    soon as their actions are in the same ones of the two lists
    ['enable', 'start'] and ['disable', 'stop']: 'enable' is 'start',
    'disable' is 'stop', and all other values are alike. *)
Theorem action_matters_only_through_its_list :
  forall (P : platform) (self other : settings),
    RESOURCE_TAG_KEY self = RESOURCE_TAG_KEY other ->
    RESOURCE_TAG_VALUE self = RESOURCE_TAG_VALUE other ->
    AWS_REGIONS self = AWS_REGIONS other ->
    (In (ACTION self) ["enable"; "start"] <->
     In (ACTION other) ["enable"; "start"]) ->
    (In (ACTION self) ["disable"; "stop"] <->
     In (ACTION other) ["disable"; "stop"]) ->
    _execute P self = _execute P other.
Proof.
  intros P self other Hk Hv Hr Hstart Hstop.
  apply mem_same in Hstart, Hstop.
  unfold _execute, execute_region, enable_disable_instances,
    enable_disable_clusters.
  rewrite Hk, Hv, Hr, Hstart, Hstop. reflexivity.
Qed.

Lemma action_matters_only_through_its_list_witness :
  _execute Scenario.aws (Scenario.config "enable" "us-east-1,eu-west-1") =
  _execute Scenario.aws (Scenario.config "start" "us-east-1,eu-west-1").
Proof.
  apply (action_matters_only_through_its_list Scenario.aws
           (Scenario.config "enable" "us-east-1,eu-west-1")
           (Scenario.config "start" "us-east-1,eu-west-1"));
    try reflexivity.
  - split; intros _; simpl; auto.
  - split; intros [H|[H|[]]]; discriminate.
Defined.

(* ===================================================================== *)
(** * Platforms that fail *)
(* ===================================================================== *)

Module Faulty.

(** The account of [Scenario], but the tagging API refuses every listing
    in eu-west-1. *)
Definition listing_denied : platform := {|
  World := Scenario.account;
  sdk_client := fun _ _ w => (w, None);
  sdk_get_resources := fun region rtype key value w =>
    if String.eqb region "eu-west-1"
    then (w, inl (OtherError "AccessDenied"))
    else Scenario.get_resources region rtype key value w;
  sdk_rds := Scenario.rds;
  Response := string;
  _build_response_ok := "OK"
|}.

(** The account of [Scenario], but RDS answers every request with the
    state fault of the cluster category, whatever the operation. *)
Definition cluster_fault : platform := {|
  World := Scenario.account;
  sdk_client := fun _ _ w => (w, None);
  sdk_get_resources := Scenario.get_resources;
  sdk_rds := fun _ _ _ w => (w, Some InvalidDBClusterStateFault);
  Response := string;
  _build_response_ok := "OK"
|}.

(** The account of [Scenario], but no client can be constructed for an
    empty region name, as the SDK validates the name. *)
Definition strict_regions : platform := {|
  World := Scenario.account;
  sdk_client := fun _ region w =>
    if String.eqb region ""
    then (w, Some (OtherError "InvalidRegionError"))
    else (w, None);
  sdk_get_resources := Scenario.get_resources;
  sdk_rds := Scenario.rds;
  Response := string;
  _build_response_ok := "OK"
|}.

(** db-1 is already stopped and requests on db-2 are refused. *)
Definition db1_stopped_db2_denied : Scenario.account :=
  {| Scenario.stopped := ["db-1"]; Scenario.denied := ["db-2"] |}.

(** An environment whose region list ends with a comma. *)
Definition environ (name : string) : option string :=
  if String.eqb name "PARAM_ACTION" then Some "stop"
  else if String.eqb name "PARAM_RESOURCE_TAG_KEY" then Some "env"
  else if String.eqb name "PARAM_RESOURCE_TAG_VALUE" then Some "scheduled-off"
  else if String.eqb name "PARAM_AWS_REGIONS" then Some "us-east-1,"
  else None.

Definition self : settings := {|
  ACTION := "stop";
  RESOURCE_TAG_KEY := "env";
  RESOURCE_TAG_VALUE := "scheduled-off";
  AWS_REGIONS := ["us-east-1"; ""]
|}.

End Faulty.



(* ===================================================================== *)
(** * Monitor 4: the order of the remote operations *)
(* ===================================================================== *)

(** The remote operations of a trace, in order: each listing with its
    answer, each start/stop request. *)
Inductive remote_operation : Type :=
| Listing (region rtype : string) (answer : exc + list resource_page)
| Request (q : request).

Fixpoint operations (t : list event) : list remote_operation :=
  match t with
  | [] => []
  | EvGetResources region rtype _ _ answer :: t' =>
      Listing region rtype answer :: operations t'
  | EvRds op region id _ :: t' => Request (op, region, id) :: operations t'
  | _ :: t' => operations t'
  end.

(** The requests an answer to a listing calls for: those of its identifiers
    if it is a list of pages, none if it is an exception. *)
Definition requests_for (action region rtype : string)
           (answer : exc + list resource_page) : list request :=
  match answer with
  | inr pages => expected_requests action region rtype pages
  | inl _ => []
  end.

(** The remote operations of one region, given the answers to its two
    listings: the instances are listed, every instance the listing
    returned is transitioned, the clusters are listed, every cluster the
    listing returned is transitioned. *)
Definition region_operations (action : string)
           (ra : string * ((exc + list resource_page) *
                           (exc + list resource_page)))
  : list remote_operation :=
  let '(region, (instances, clusters)) := ra in
  Listing region "rds:db" instances ::
  map Request (requests_for action region "rds:db" instances) ++
  Listing region "rds:cluster" clusters ::
  map Request (requests_for action region "rds:cluster" clusters).

(** Both listings of a region were answered. *)
Definition answered (a : (exc + list resource_page) *
                         (exc + list resource_page)) : Prop :=
  exists instances clusters, a = (inr instances, inr clusters).

Arguments requests_for : simpl never.

Definition operation_step (s : list remote_operation) (ev : event)
  : list remote_operation :=
  s ++ operations [ev].

Lemma operations_cons (ev : event) (t : list event) :
  operations (ev :: t) = operations [ev] ++ operations t.
Proof. now destruct ev. Qed.

Lemma operation_observe (t : list event) (s : list remote_operation) :
  observe operation_step t s = s ++ operations t.
Proof.
  revert s. induction t as [|ev t IH]; intros s.
  - now rewrite app_nil_r.
  - change (observe operation_step (ev :: t) s)
      with (observe operation_step t (operation_step s ev)).
    rewrite IH, (operations_cons ev t). unfold operation_step.
    now rewrite <- app_assoc.
Qed.

Lemma operation_step_quiet (s : list remote_operation) (ev : event) :
  operations [ev] = [] -> operation_step s ev = s.
Proof. intros H. unfold operation_step. now rewrite H, app_nil_r. Qed.

Lemma operations_item_events (op : rds_operation) (region name : string)
      (a : option exc) :
  operations (item_events op region name a) = [Request (op, region, name)].
Proof.
  unfold item_events. simpl.
  destruct a as [e|]; [destruct (exc_eqb e (state_fault op))|]; reflexivity.
Qed.

Section Operations.

Variable P : platform.
Variable self : settings.

Lemma operation_transition (op : rds_operation) (region : string)
      (names : list string) (s : list remote_operation) :
  wp operation_step (transition P op region names)
     (fun r s' =>
        exists suffix,
          s' ++ suffix =
            s ++ map Request (map (fun id => (op, region, id)) names) /\
          (r = inr tt -> suffix = []))
     s.
Proof.
  apply wp_transition.
  - intros e. rewrite operation_step_quiet by reflexivity.
    eexists. split; [reflexivity | discriminate].
  - rewrite !operation_step_quiet by reflexivity.
    apply wp_for_each
      with (inv := fun rest s' =>
                     exists done,
                       names = done ++ rest /\
                       s' = s ++ map Request
                                     (map (fun id => (op, region, id)) done)).
    + exists []. split; [reflexivity | now rewrite app_nil_r].
    + intros x rest s' (done & Hsplit & ->). apply wp_item. intros a.
      rewrite operation_observe, operations_item_events. simpl region_name.
      destruct (item_result op a).
      * exists (map Request (map (fun id => (op, region, id)) rest)).
        split; [|discriminate].
        rewrite Hsplit, !map_app, <- !app_assoc. reflexivity.
      * exists (done ++ [x]).
        split; [now rewrite <- app_assoc|].
        now rewrite !map_app, <- app_assoc.
    + intros s' (done & Hsplit & ->). rewrite app_nil_r in Hsplit. subst.
      exists []. split; [now rewrite app_nil_r | reflexivity].
Qed.

Lemma operation_enable_disable (c : category) (region : string)
      (pages : list resource_page) (s : list remote_operation) :
  wp operation_step (enable_disable P self c region (identifiers pages))
     (fun r s' =>
        exists suffix,
          s' ++ suffix =
            s ++ map Request
                     (requests_for (ACTION self) region (resource_type c)
                                   (inr pages)) /\
          (r = inr tt -> suffix = []))
     s.
Proof.
  unfold requests_for, expected_requests.
  rewrite category_of_resource_type.
  apply wp_enable_disable.
  - intros H. exists []. split; [|reflexivity].
    destruct H as [H|H]; rewrite H.
    + now destruct (direction_of (ACTION self)).
    + reflexivity.
  - intros d _ ->. apply operation_transition.
Qed.

Lemma requests_for_nothing (region rtype : string) :
  requests_for (ACTION self) region rtype (inr []) = [].
Proof. unfold requests_for. now apply expected_requests_nil. Qed.

Lemma operation_execute_region (region : string)
      (s : list remote_operation) :
  wp operation_step (execute_region P self region)
     (fun r s' =>
        exists found suffix,
          s' ++ suffix = s ++ region_operations (ACTION self) (region, found) /\
          (forall x, r = inr x -> suffix = [] /\ answered found))
     s.
Proof.
  unfold execute_region.
  apply wp_bind, wp_logger. rewrite operation_step_quiet by reflexivity.
  apply wp_bind, wp_get_resource_identifiers_by_tag.
  { intros e. rewrite operation_step_quiet by reflexivity.
    exists (inr [], inr []). eexists. split; [reflexivity | discriminate]. }
  { intros e. rewrite (operation_step_quiet s) by reflexivity.
    exists (inl e, inr []), [Listing region "rds:cluster" (inr [])].
    split; [|discriminate].
    unfold operation_step, region_operations. simpl.
    rewrite requests_for_nothing, <- app_assoc. reflexivity. }
  intros pages. rewrite append_pages_identifiers.
  rewrite (operation_step_quiet s) by reflexivity.
  apply wp_bind, wp_logger.
  rewrite (operation_step_quiet _ (EvLog _ _ _)) by reflexivity.
  apply wp_bind.
  eapply wp_conseq; [apply (operation_enable_disable Instance)|].
  intros r s1 (suffix1 & Heq1 & Hret1).
  destruct r as [e|[]].
  { exists (inr pages, inr []),
           (suffix1 ++ [Listing region "rds:cluster" (inr [])]).
    split; [|discriminate].
    rewrite app_assoc, Heq1.
    unfold operation_step, region_operations. simpl.
    rewrite requests_for_nothing, <- !app_assoc. reflexivity. }
  rewrite (Hret1 eq_refl), app_nil_r in Heq1. subst s1.
  apply wp_bind, wp_logger. rewrite operation_step_quiet by reflexivity.
  apply wp_bind, wp_get_resource_identifiers_by_tag.
  { intros e. rewrite operation_step_quiet by reflexivity.
    exists (inr pages, inr []), [Listing region "rds:cluster" (inr [])].
    split; [|discriminate].
    unfold operation_step, region_operations. simpl.
    rewrite requests_for_nothing, <- !app_assoc. reflexivity. }
  { intros e.
    rewrite (operation_step_quiet _ (EvClient _ _ _)) by reflexivity.
    exists (inr pages, inl e), [].
    split; [|discriminate].
    unfold operation_step, region_operations. simpl.
    rewrite app_nil_r, <- !app_assoc. reflexivity. }
  intros pages'. rewrite append_pages_identifiers.
  rewrite (operation_step_quiet _ (EvClient _ _ _)) by reflexivity.
  apply wp_bind, wp_logger.
  rewrite (operation_step_quiet _ (EvLog _ _ _)) by reflexivity.
  eapply wp_conseq; [apply (operation_enable_disable Cluster)|].
  intros r s2 (suffix2 & Heq2 & Hret2).
  exists (inr pages, inr pages'), suffix2. split.
  - rewrite Heq2. unfold operation_step, region_operations. simpl.
    rewrite <- !app_assoc. reflexivity.
  - intros [] ->. split; [now apply Hret2 | now exists pages, pages'].
Qed.

Lemma operation_execute :
  wp operation_step (_execute P self)
     (fun r s =>
        exists found suffix,
          List.length found = List.length (AWS_REGIONS self) /\
          s ++ suffix =
            flat_map (region_operations (ACTION self))
                     (combine (AWS_REGIONS self) found) /\
          (forall x, r = inr x -> suffix = [] /\ Forall answered found))
     [].
Proof.
  unfold _execute.
  apply wp_bind, wp_logger. rewrite operation_step_quiet by reflexivity.
  apply wp_bind.
  apply wp_for_each
    with (inv := fun rest s =>
                   exists done found,
                     AWS_REGIONS self = done ++ rest /\
                     List.length found = List.length done /\
                     Forall answered found /\
                     s = flat_map (region_operations (ACTION self))
                                  (combine done found)).
  - exists [], []. repeat split. constructor.
  - intros region rest s (done & found & Hsplit & Hlen & Hans & ->).
    eapply wp_conseq; [apply operation_execute_region|].
    intros r s' (f & suffix & Heq & Hret).
    destruct r as [e|[]].
    + exists (found ++ f :: repeat (inr [], inr []) (List.length rest)),
             (suffix ++
              flat_map (region_operations (ACTION self))
                       (combine rest
                                (repeat (inr [], inr []) (List.length rest)))).
      split; [|split; [|discriminate]].
      * rewrite Hsplit, !length_app. simpl. rewrite repeat_length. lia.
      * rewrite Hsplit, combine_app by (symmetry; exact Hlen).
        rewrite flat_map_app, app_assoc, Heq.
        cbn [combine flat_map]. now rewrite <- app_assoc.
    + destruct (Hret tt eq_refl) as [-> Hf]. rewrite app_nil_r in Heq.
      subst s'.
      exists (done ++ [region]), (found ++ [f]).
      split; [now rewrite <- app_assoc|].
      split; [rewrite !length_app; simpl; lia|].
      split; [apply Forall_app; split; [exact Hans | now constructor]|].
      rewrite combine_app by (symmetry; exact Hlen).
      rewrite flat_map_app. cbn [combine flat_map]. now rewrite app_nil_r.
  - intros s (done & found & Hsplit & Hlen & Hans & ->).
    rewrite app_nil_r in Hsplit. subst done.
    apply wp_bind, wp_logger. rewrite operation_step_quiet by reflexivity.
    apply wp_ret.
    exists found, []. split; [exact Hlen|].
    split; [now rewrite app_nil_r | now intros x _].
Qed.

End Operations.




(* ===================================================================== *)
(** * Monitor 9: the regions the tagging clients are constructed for *)
(* ===================================================================== *)

(** The regions of the constructions of a tagging client in a trace, failed
    ones included, in order. *)
Fixpoint tagging_clients (t : list event) : list string :=
  match t with
  | [] => []
  | EvClient service region _ :: t' =>
      if String.eqb service "resourcegroupstaggingapi"
      then region :: tagging_clients t'
      else tagging_clients t'
  | _ :: t' => tagging_clients t'
  end.

(** The two tagging clients [_execute] constructs in a region, one per
    listing. *)
Definition region_clients (region : string) : list string :=
  [region; region].

Definition tagging_step (s : list string) (ev : event) : list string :=
  s ++ tagging_clients [ev].

Lemma tagging_clients_cons (ev : event) (t : list event) :
  tagging_clients (ev :: t) = tagging_clients [ev] ++ tagging_clients t.
Proof.
  destruct ev as [l f a|sv rg a|rg ty k v a|op rg id a]; simpl;
    try reflexivity.
  now destruct (String.eqb sv "resourcegroupstaggingapi").
Qed.

Lemma tagging_observe (t : list event) (s : list string) :
  observe tagging_step t s = s ++ tagging_clients t.
Proof.
  revert s. induction t as [|ev t IH]; intros s.
  - now rewrite app_nil_r.
  - change (observe tagging_step (ev :: t) s)
      with (observe tagging_step t (tagging_step s ev)).
    rewrite IH, (tagging_clients_cons ev t). unfold tagging_step.
    now rewrite <- app_assoc.
Qed.

Lemma tagging_step_quiet (s : list string) (ev : event) :
  tagging_clients [ev] = [] -> tagging_step s ev = s.
Proof. intros H. unfold tagging_step. now rewrite H, app_nil_r. Qed.

Lemma tagging_step_client (s : list string) (region : string)
      (a : option exc) :
  tagging_step s (EvClient "resourcegroupstaggingapi" region a) =
  s ++ [region].
Proof. reflexivity. Qed.

Lemma tagging_clients_item_events (op : rds_operation)
      (region name : string) (a : option exc) :
  tagging_clients (item_events op region name a) = [].
Proof.
  unfold item_events. simpl.
  destruct a as [e|]; [destruct (exc_eqb e (state_fault op))|]; reflexivity.
Qed.

Section TaggingClients.

Variable P : platform.
Variable self : settings.

Lemma tagging_transition (op : rds_operation) (region : string)
      (names : list string) (s : list string) :
  wp tagging_step (transition P op region names) (fun _ s' => s' = s) s.
Proof.
  apply wp_transition.
  - intros e. now rewrite tagging_step_quiet.
  - rewrite !tagging_step_quiet by reflexivity.
    apply wp_for_each with (inv := fun _ s' => s' = s).
    + reflexivity.
    + intros x rest s' ->. apply wp_item. intros a.
      rewrite tagging_observe, tagging_clients_item_events, app_nil_r.
      now destruct (item_result op a).
    + now intros s' ->.
Qed.

Lemma tagging_enable_disable (c : category) (region : string)
      (names : list string) (s : list string) :
  wp tagging_step (enable_disable P self c region names)
     (fun _ s' => s' = s) s.
Proof.
  apply wp_enable_disable; [reflexivity|].
  intros d _ _. apply tagging_transition.
Qed.

(** In a region the first tagging client is always constructed; the second
    one too unless an exception escaped before. *)
Lemma tagging_execute_region (region : string) (s : list string) :
  wp tagging_step (execute_region P self region)
     (fun r s' =>
        (s' = s ++ [region] \/ s' = s ++ region_clients region) /\
        (forall x, r = inr x -> s' = s ++ region_clients region))
     s.
Proof.
  unfold execute_region, region_clients.
  apply wp_bind, wp_logger. rewrite tagging_step_quiet by reflexivity.
  apply wp_bind, wp_get_resource_identifiers_by_tag.
  { intros e. rewrite tagging_step_client.
    split; [now left | discriminate]. }
  { intros e. rewrite tagging_step_quiet by reflexivity.
    rewrite tagging_step_client. split; [now left | discriminate]. }
  intros pages. rewrite tagging_step_quiet by reflexivity.
  rewrite tagging_step_client.
  apply wp_bind, wp_logger. rewrite tagging_step_quiet by reflexivity.
  apply wp_bind.
  eapply wp_conseq; [apply (tagging_enable_disable Instance)|].
  intros r s' ->.
  destruct r as [e|[]]; [split; [now left | discriminate]|].
  apply wp_bind, wp_logger. rewrite tagging_step_quiet by reflexivity.
  assert (Hboth : (s ++ [region]) ++ [region] = s ++ [region; region])
    by now rewrite <- app_assoc.
  apply wp_bind, wp_get_resource_identifiers_by_tag.
  { intros e. rewrite tagging_step_client, Hboth.
    split; [now right | discriminate]. }
  { intros e. rewrite tagging_step_quiet by reflexivity.
    rewrite tagging_step_client, Hboth. split; [now right | discriminate]. }
  intros pages'. rewrite tagging_step_quiet by reflexivity.
  rewrite tagging_step_client, Hboth.
  apply wp_bind, wp_logger. rewrite tagging_step_quiet by reflexivity.
  eapply wp_conseq; [apply (tagging_enable_disable Cluster)|].
  intros r s' ->. split; [now right | reflexivity].
Qed.

Lemma tagging_execute :
  wp tagging_step (_execute P self)
     (fun r s =>
        (exists suffix,
            s ++ suffix = flat_map region_clients (AWS_REGIONS self) /\
            (forall x, r = inr x -> suffix = [])) /\
        (forall region rest,
            AWS_REGIONS self = region :: rest ->
            exists more, s = region :: more))
     [].
Proof.
  unfold _execute.
  apply wp_bind, wp_logger. rewrite tagging_step_quiet by reflexivity.
  apply wp_bind.
  apply wp_for_each
    with (inv := fun rest s =>
                   exists done,
                     AWS_REGIONS self = done ++ rest /\
                     s = flat_map region_clients done).
  - now exists [].
  - intros region rest s (done & Hsplit & ->).
    eapply wp_conseq; [apply tagging_execute_region|].
    intros r s' [Hs Hret].
    destruct r as [e|[]].
    + split.
      * rewrite Hsplit, flat_map_app. cbn [flat_map].
        destruct Hs as [-> | ->].
        -- exists (region :: flat_map region_clients rest).
           now rewrite <- !app_assoc.
        -- exists (flat_map region_clients rest).
           split; [|discriminate]. now rewrite <- !app_assoc.
      * intros first others Hfirst. rewrite Hsplit in Hfirst.
        destruct done as [|d done].
        -- injection Hfirst as <- _.
           destruct Hs as [-> | ->]; eexists; reflexivity.
        -- injection Hfirst as <- _.
           destruct Hs as [-> | ->]; eexists; reflexivity.
    + rewrite (Hret tt eq_refl).
      exists (done ++ [region]).
      split; [now rewrite <- app_assoc|].
      rewrite flat_map_app. cbn [flat_map]. now rewrite app_nil_r.
  - intros s (done & Hsplit & ->).
    rewrite app_nil_r in Hsplit. subst done.
    apply wp_bind, wp_logger. rewrite tagging_step_quiet by reflexivity.
    apply wp_ret. split.
    + exists []. split; [now rewrite app_nil_r | reflexivity].
    + intros first others ->. eexists. reflexivity.
Qed.

End TaggingClients.

(* ===================================================================== *)
(** * Monitor 10: what comes right after a tagging client *)
(* ===================================================================== *)

(** After the successful construction of a tagging client the monitor
    expects the listing of that client's region as the very next event;
    anything else, or the end of the trace, leads it astray. *)
Inductive connection : Type :=
| Unbound
| Connected (region : string)
| Astray.

Definition connect_step (s : connection) (ev : event) : connection :=
  match s with
  | Unbound =>
      match ev with
      | EvClient service region None =>
          if String.eqb service "resourcegroupstaggingapi"
          then Connected region else Unbound
      | _ => Unbound
      end
  | Connected region =>
      match ev with
      | EvGetResources region' _ _ _ _ =>
          if String.eqb region region' then Unbound else Astray
      | _ => Astray
      end
  | Astray => Astray
  end.

Lemma connect_listing (region rtype key value : string)
      (a : exc + list resource_page) :
  connect_step
    (connect_step Unbound (EvClient "resourcegroupstaggingapi" region None))
    (EvGetResources region rtype key value a) = Unbound.
Proof. simpl. now rewrite String.eqb_refl. Qed.

Section Connection.

Variable P : platform.
Variable self : settings.

Lemma connect_item (op : rds_operation) (region name : string)
      (a : option exc) :
  observe connect_step (item_events op region name a) Unbound = Unbound.
Proof.
  unfold item_events.
  destruct a as [e|]; [destruct (exc_eqb e (state_fault op))|]; reflexivity.
Qed.

Lemma connect_transition (op : rds_operation) (region : string)
      (names : list string) :
  wp connect_step (transition P op region names) (fun _ s => s = Unbound) Unbound.
Proof.
  apply wp_transition; [reflexivity|]. simpl.
  apply wp_for_each with (inv := fun _ s => s = Unbound).
  - reflexivity.
  - intros x rest s' ->. apply wp_item. intros a.
    rewrite connect_item. now destruct (item_result op a).
  - now intros s' ->.
Qed.

Lemma connect_enable_disable (c : category) (region : string)
      (names : list string) :
  wp connect_step (enable_disable P self c region names)
     (fun _ s => s = Unbound) Unbound.
Proof.
  apply wp_enable_disable; [reflexivity|].
  intros d _ _. apply connect_transition.
Qed.

Lemma connect_execute_region (region : string) :
  wp connect_step (execute_region P self region) (fun _ s => s = Unbound) Unbound.
Proof.
  unfold execute_region.
  apply wp_bind, wp_logger. simpl.
  apply wp_bind, wp_get_resource_identifiers_by_tag;
    [reflexivity | intros e; apply connect_listing |].
  intros pages. rewrite connect_listing.
  apply wp_bind, wp_logger. simpl.
  apply wp_bind.
  eapply wp_conseq; [apply (connect_enable_disable Instance)|].
  intros [e|[]] s ->; [reflexivity|].
  apply wp_bind, wp_logger. simpl.
  apply wp_bind, wp_get_resource_identifiers_by_tag;
    [reflexivity | intros e; apply connect_listing |].
  intros pages'. rewrite connect_listing.
  apply wp_bind, wp_logger. simpl.
  apply (connect_enable_disable Cluster).
Qed.

Lemma connect_execute :
  wp connect_step (_execute P self) (fun _ s => s = Unbound) Unbound.
Proof.
  unfold _execute.
  apply wp_bind, wp_logger. simpl.
  apply wp_bind.
  apply wp_for_each with (inv := fun _ s => s = Unbound).
  - reflexivity.
  - intros region rest s ->.
    eapply wp_conseq; [apply connect_execute_region|].
    now intros [e|[]] s' ->.
  - intros s ->. apply wp_bind, wp_logger. simpl. now apply wp_ret.
Qed.

End Connection.

Lemma connect_astray (t : list event) :
  observe connect_step t Astray = Astray.
Proof. induction t as [|ev t IH]; [reflexivity | exact IH]. Qed.

(** In a trace the monitor ends [Unbound] on, every constructed tagging client
    is followed at once by a listing in its region. *)
Lemma connect_unbound (t1 t2 : list event) (region : string) :
  observe connect_step
          (t1 ++ EvClient "resourcegroupstaggingapi" region None :: t2)
          Unbound = Unbound ->
  exists rtype key value a t3,
    t2 = EvGetResources region rtype key value a :: t3.
Proof.
  rewrite observe_app.
  change (observe connect_step
                  (EvClient "resourcegroupstaggingapi" region None :: t2)
                  (observe connect_step t1 Unbound))
    with (observe connect_step t2
            (connect_step (observe connect_step t1 Unbound)
                          (EvClient "resourcegroupstaggingapi" region None))).
  destruct (observe connect_step t1 Unbound) as [|region'|]; simpl connect_step.
  - destruct t2 as [|ev t3]; [discriminate|].
    change (observe connect_step (ev :: t3) (Connected region))
      with (observe connect_step t3 (connect_step (Connected region) ev)).
    destruct ev as [l f args|sv rg x|rg ty k v x|o rg i x];
      try (simpl; rewrite connect_astray; discriminate).
    simpl. destruct (String.eqb region rg) eqn:E;
      [|rewrite connect_astray; discriminate].
    apply String.eqb_eq in E. subst rg. intros _.
    now exists ty, k, v, x, t3.
  - rewrite connect_astray. discriminate.
  - rewrite connect_astray. discriminate.
Qed.

Lemma class_attributes_regions (environ : string -> option string)
      (self : settings) :
  class_attributes environ = Some self ->
  exists value,
    environ "PARAM_AWS_REGIONS" = Some value /\
    AWS_REGIONS self = Py.split "," value.
Proof.
  unfold class_attributes.
  destruct (environ "PARAM_ACTION") as [action|]; [|discriminate].
  destruct (environ "PARAM_RESOURCE_TAG_KEY") as [key|]; [|discriminate].
  destruct (environ "PARAM_RESOURCE_TAG_VALUE") as [val|]; [|discriminate].
  destruct (environ "PARAM_AWS_REGIONS") as [value|]; [|discriminate].
  intros H. injection H as <-. now exists value.
Qed.

(** C10. The regions the orchestrator processes are the literal split of
    the environment value on ',': joined with ',' they give the value
    back and no segment holds a ','; the list is never empty, and it is the
    single empty string when the value is empty.  The segments, empty and
    blank ones included, are tried in order under their literal name: the
    tagging clients of an invocation are constructed, two per segment, for
    the segments in order, and the construction for the first segment is
    always attempted.  A client that is constructed is followed at once by
    a listing with that segment as the region name; a construction that
    raises is the last event of the invocation, its exception the result,
    so that neither its listing nor any later segment is reached.  When no
    exception escapes, every segment had both its listings. *)
Theorem C10_regions_are_the_literal_split_tried_in_order :
  forall (environ : string -> option string) (self : settings),
    class_attributes environ = Some self ->
    exists value,
      environ "PARAM_AWS_REGIONS" = Some value /\
      AWS_REGIONS self = Py.split "," value /\
      AWS_REGIONS self <> [] /\
      join "," (AWS_REGIONS self) = value /\
      Forall (fun segment => Py.occurs "," segment = false)
             (AWS_REGIONS self) /\
      (value = "" -> AWS_REGIONS self = [""]) /\
      forall (P : platform) (w : World P),
        (exists more,
            tagging_clients (trace (_execute P self w)) =
              hd "" (AWS_REGIONS self) :: more) /\
        (exists untried,
            tagging_clients (trace (_execute P self w)) ++ untried =
              flat_map region_clients (AWS_REGIONS self) /\
            (forallb benign (trace (_execute P self w)) = true ->
             untried = [])) /\
        (exists unlisted,
            listings (trace (_execute P self w)) ++ unlisted =
              flat_map region_listings (AWS_REGIONS self) /\
            (forallb benign (trace (_execute P self w)) = true ->
             unlisted = [])) /\
        (forall t1 region t2,
            trace (_execute P self w) =
              t1 ++ EvClient "resourcegroupstaggingapi" region None :: t2 ->
            exists rtype key tag a t3,
              t2 = EvGetResources region rtype key tag a :: t3) /\
        (forall t1 region e t2,
            trace (_execute P self w) =
              t1 ++ EvClient "resourcegroupstaggingapi" region (Some e) :: t2 ->
            t2 = [] /\ result (_execute P self w) = inl e).
Proof.
  intros environ self H.
  destruct (class_attributes_regions environ self H) as (value & Hv & Hsplit).
  exists value.
  split; [exact Hv|]. split; [exact Hsplit|].
  split; [rewrite Hsplit; apply split_not_nil|].
  split; [rewrite Hsplit; apply join_split_from|].
  split; [rewrite Hsplit; now apply split_from_segments_no_sep|].
  split; [intros ->; exact Hsplit|].
  intros P w.
  destruct (tagging_execute P self w) as [(untried & Heq & Hret) Hfirst].
  rewrite tagging_observe in Heq, Hfirst. simpl in Heq, Hfirst.
  split; [|split; [|split; [|split]]].
  - destruct (AWS_REGIONS self) as [|region rest] eqn:E.
    + exfalso. symmetry in Hsplit. revert Hsplit. apply split_not_nil.
    + exact (Hfirst region rest eq_refl).
  - exists untried. split; [exact Heq|].
    intros Hb. apply execute_returns_iff in Hb. exact (Hret _ Hb).
  - destruct (listing_execute P self w) as (unlisted & Hl & Hlret).
    rewrite listing_observe in Hl. simpl in Hl.
    exists unlisted. split; [exact Hl|].
    intros Hb. apply execute_returns_iff in Hb. exact (Hlret _ Hb).
  - intros t1 region t2 Ht.
    pose proof (connect_execute P self w) as Hc. simpl in Hc.
    rewrite Ht in Hc. exact (connect_unbound _ _ _ Hc).
  - intros t1 region e t2 Ht.
    exact (execute_uncaught P self w _ _ _ e Ht eq_refl).
Qed.

(** A region list with a trailing comma on a platform that validates
    region names: us-east-1 is processed, then the client for the empty
    segment is tried under the name "" and refused, which ends the
    invocation. *)
Lemma C10_witness :
  class_attributes Faulty.environ = Some Faulty.self /\
  AWS_REGIONS Faulty.self = Py.split "," "us-east-1," /\
  AWS_REGIONS Faulty.self = ["us-east-1"; ""] /\
  tagging_clients (trace (_execute Faulty.strict_regions Faulty.self
                                   Scenario.all_running)) =
    ["us-east-1"; "us-east-1"; ""] /\
  (exists untried,
      tagging_clients (trace (_execute Faulty.strict_regions Faulty.self
                                       Scenario.all_running)) ++ untried =
        ["us-east-1"; "us-east-1"; ""; ""]) /\
  listings (trace (_execute Faulty.strict_regions Faulty.self
                            Scenario.all_running)) =
    [("us-east-1", "rds:db"); ("us-east-1", "rds:cluster")] /\
  result (_execute Faulty.strict_regions Faulty.self Scenario.all_running) =
    inl (OtherError "InvalidRegionError").
Proof.
  destruct (C10_regions_are_the_literal_split_tried_in_order
              Faulty.environ Faulty.self eq_refl)
    as (value & Hv & Hsplit & _ & _ & _ & _ & Hrun).
  injection Hv as <-.
  split; [reflexivity|]. split; [exact Hsplit|]. split; [reflexivity|].
  split; [reflexivity|].
  destruct (Hrun Faulty.strict_regions Scenario.all_running)
    as (_ & (untried & Heq & _) & _ & _ & Hfail).
  split; [exists untried; exact Heq|]. split; [reflexivity|].
  exact (proj2 (Hfail
                  (removelast
                     (trace (_execute Faulty.strict_regions Faulty.self
                                      Scenario.all_running)))
                  "" (OtherError "InvalidRegionError") [] eq_refl)).
Defined.

(** An empty segment that triggers no discovery call: the region list
    ",us-east-1," splits into "", "us-east-1" and "".  On a platform that
    validates region names the construction of the first client, for the
    region "", raises; the invocation ends there, with no listing at all
    -- none under the empty name, and none for us-east-1 either. *)
Lemma C10_empty_segment_triggers_no_discovery_call :
  class_attributes Deployment.environ = Some Deployment.self /\
  AWS_REGIONS Deployment.self = [""; "us-east-1"; ""] /\
  trace (_execute Faulty.strict_regions Deployment.self
                  Scenario.all_running) =
    [EvLog INFO "Starting the operation." [];
     EvLog INFO "> Searching RDS databases in region %s having tag %s=%s."
           [""; "env"; "scheduled-off"];
     EvClient "resourcegroupstaggingapi" ""
              (Some (OtherError "InvalidRegionError"))] /\
  listings (trace (_execute Faulty.strict_regions Deployment.self
                            Scenario.all_running)) = [] /\
  result (_execute Faulty.strict_regions Deployment.self
                   Scenario.all_running) =
    inl (OtherError "InvalidRegionError") /\
  ~ (forall (environ : string -> option string) (self : settings)
            (P : platform) (w : World P),
       class_attributes environ = Some self ->
       forall segment,
         In segment (AWS_REGIONS self) ->
         exists rtype,
           In (segment, rtype) (listings (trace (_execute P self w)))).
Proof.
  split; [reflexivity|]. split; [reflexivity|]. split; [reflexivity|].
  split; [reflexivity|]. split; [reflexivity|].
  intros H.
  destruct (H Deployment.environ Deployment.self Faulty.strict_regions
              Scenario.all_running eq_refl "" (or_introl eq_refl))
    as (rtype & Hin).
  exact Hin.
Qed.
